(** * Optical flow and keypoint tracking (hw7 [motion.py]): a shallow embedding

    The development follows [src/fall_2020/hw7_release/motion.py] function by
    function.  Conventions of the embedding:

    - a float64 is a rational ([Q]) and arithmetic is exact: rounding error
      is outside the model.  Frames, keypoints and flow vectors hold finite
      values.  The non-finite values that numpy produces on a division by
      zero are kept, in [fnum], where the source divides by a computed
      quantity ([compute_error], [IoU]);
    - an exception is a value [Err e] of the [result] type, threaded by a
      small error monad, so a raise inside a loop ends the whole call as it
      does in Python;
    - a 2-D array is its shape together with its indexing function; a slice
      of it is a [patch], its shape with its entries in row-major order;
    - a keypoint array of shape (N, 2) is a list of pairs in the column order
      of the array, which the source unpacks as [y, x]; an array without
      rows is the empty list, which stands for [np.array([])] of shape
      (0,), the empty array that the source builds itself; an empty array
      of shape (0, 2), which numpy does not broadcast against it, is
      modelled apart, with the shaped versions of the two flow functions;
    - the assertions on shapes of lines 57, 118, 137 and 141 hold by
      construction and are not written out. *)

From Stdlib Require Import QArith ZArith List Lia Bool Qround Qminmax Qabs Lqa.
Import ListNotations.
Open Scope Q_scope.

(** ** Exceptions and the error monad *)

Inductive exn : Set :=
| AssertionError
| ValueError
| LinAlgError
| IndexError
| AxisError
| UnboundLocalError.

Inductive result (A : Type) : Type :=
| Ok (a : A)
| Err (e : exn).
Arguments Ok {A} a.
Arguments Err {A} e.

Definition bind {A B : Type} (c : result A) (k : A -> result B) : result B :=
  match c with
  | Ok a => k a
  | Err e => Err e
  end.

Notation "x <- c ;; k" := (bind c (fun x => k))
  (at level 61, c at next level, right associativity).
Notation "' p <- c ;; k" := (bind c (fun x => match x with p => k end))
  (at level 61, p pattern, c at next level, right associativity).

(** [assert cond] *)
Definition py_assert (cond : bool) : result unit :=
  if cond then Ok tt else Err AssertionError.

(** A [for] loop that appends one value per element: the first raise ends it. *)
Fixpoint mapr {A B : Type} (f : A -> result B) (l : list A) : result (list B) :=
  match l with
  | [] => Ok []
  | a :: l' => b <- f a ;; bs <- mapr f l' ;; Ok (b :: bs)
  end.

(** A [for] loop whose body either appends a value or [continue]s. *)
Fixpoint filter_mapr {A B : Type} (f : A -> result (option B)) (l : list A)
  : result (list B) :=
  match l with
  | [] => Ok []
  | a :: l' =>
      o <- f a ;;
      bs <- filter_mapr f l' ;;
      Ok (match o with Some b => b :: bs | None => bs end)
  end.

(** A [for] loop that threads a state. *)
Fixpoint for_state {A S : Type} (f : S -> A -> result S) (s : S) (l : list A)
  : result S :=
  match l with
  | [] => Ok s
  | a :: l' => s' <- f s a ;; for_state f s' l'
  end.

(** ** Numbers *)

(** [int(round(q))]: Python rounds to the nearest integer, ties to even. *)
Definition py_round (q : Q) : Z :=
  let f := Qfloor q in
  match Qcompare (q - inject_Z f) (1 # 2) with
  | Lt => f
  | Gt => (f + 1)%Z
  | Eq => if Z.even f then f else (f + 1)%Z
  end.

(** [np.sum] of a flat array. *)
Definition np_sum (l : list Q) : Q := fold_right Qplus 0 l.

(** Values of a float64 computation that may have divided by zero. *)
Inductive fnum : Set :=
| Fin (q : Q)
| PInf
| NInf
| NaN.

(** numpy's true division of finite numbers: dividing by zero warns and
    yields [nan] for 0/0 and a signed infinity otherwise. *)
Definition np_div (a b : Q) : fnum :=
  if Qeq_bool b 0 then
    match Qcompare a 0 with
    | Eq => NaN
    | Gt => PInf
    | Lt => NInf
    end
  else Fin (a / b).

(** ** Bounding boxes: [IoU] *)

Definition bbox : Set := (Q * Q * Q * Q)%type.

(** [np.amax([a, b])] and [np.amin([a, b])] of a two-element list. *)
Definition np_amax2 (a b : Q) : Q := Qmax a b.
Definition np_amin2 (a b : Q) : Q := Qmin a b.

(** [np.amax(a, axis)] at a scalar [a]: the second positional parameter of
    [np.amax] is the axis.  A 0-d array accepts axis 0 (and -1) and the
    maximum over its single element is that element. *)
Definition np_amax_axis (a : Q) (axis : Z) : result Q :=
  if (axis =? 0)%Z || (axis =? -1)%Z then Ok a else Err AxisError.

(** [IoU] (lines 299-316).  Coordinates and sizes are exact rationals: the
    rounding of float boxes and the wrap-around of int64 products (boxes of
    size 2^32 and beyond) are outside the model. *)
Definition IoU (bbox1 bbox2 : bbox) : result fnum :=
  let '(x1, y1, w1, h1) := bbox1 in
  let '(x2, y2, w2, h2) := bbox2 in
  let xA := np_amax2 x1 x2 in
  let yA := np_amax2 y1 y2 in
  let xB := np_amin2 (x1 + w1) (x2 + w2) in
  let yB := np_amin2 (y1 + h1) (y2 + h2) in
  xAB <- np_amax_axis (xB - xA) 0 ;;
  yAB <- np_amax_axis (yB - yA) 0 ;;
  let intersection := xAB * yAB in
  let union := w1 * h1 + w2 * h2 - intersection in
  let score := np_div intersection union in
  Ok score.

(** What the spec describes: the overlap's width and height are clamped at
    zero before they are multiplied. *)
Definition IoU_clamped (bbox1 bbox2 : bbox) : fnum :=
  let '(x1, y1, w1, h1) := bbox1 in
  let '(x2, y2, w2, h2) := bbox2 in
  let xAB := Qmax (Qmin (x1 + w1) (x2 + w2) - Qmax x1 x2) 0 in
  let yAB := Qmax (Qmin (y1 + h1) (y2 + h2) - Qmax y1 y2) 0 in
  np_div (xAB * yAB) (w1 * h1 + w2 * h2 - xAB * yAB).

(** Equality of scores up to the representation of fractions. *)
Definition fnum_eq (a b : fnum) : Prop :=
  match a, b with
  | Fin p, Fin q => p == q
  | PInf, PInf | NInf, NInf | NaN, NaN => True
  | _, _ => False
  end.


(** ** Frames, slices and gradients *)

(** A 2-D float array: [shape0] rows, [shape1] columns, read through [px]. *)
Record image : Type := mk_image {
  shape0 : nat;
  shape1 : nat;
  px : nat -> nat -> Q
}.

(** The indices selected by the slice [start:stop] on an axis of length [n]:
    a negative bound counts from the end, and both bounds are clipped to
    the axis. *)
Definition py_slice (start stop : Z) (n : nat) : list nat :=
  let clip (i : Z) : Z :=
    if (i <? 0)%Z then Z.max (i + Z.of_nat n) 0 else Z.min i (Z.of_nat n) in
  let s := clip start in
  let e := clip stop in
  seq (Z.to_nat s) (Z.to_nat (e - s)).

(** A 2-D slice [img[r0:r1, c0:c1]]: its shape and its entries, row-major. *)
Record patch : Type := mk_patch {
  pshape : nat * nat;
  pdata : list Q
}.

Definition window (img : image) (r0 r1 c0 c1 : Z) : patch :=
  let rows := py_slice r0 r1 (shape0 img) in
  let cols := py_slice c0 c1 (shape1 img) in
  {| pshape := (length rows, length cols);
     pdata := flat_map (fun i => map (fun j => px img i j) cols) rows |}.

(** The window of half-width [w] centred on pixel [(y, x)]:
    [img[y - w : y + w + 1, x - w : x + w + 1]]. *)
Definition centred (img : image) (y x w : Z) : patch :=
  window img (y - w) (y + w + 1) (x - w) (x + w + 1).

(** [p.reshape(n, 1)]: the entry count must be [n]. *)
Definition reshape_col (p : patch) (n : Z) : result (list Q) :=
  if (Z.of_nat (length (pdata p)) =? n)%Z then Ok (pdata p) else Err ValueError.

(** [np.gradient] along one axis of length [n] (edge order 1): one-sided
    differences at both ends, central differences inside. *)
Definition gradient1 (n : nat) (f : nat -> Q) (i : nat) : Q :=
  if (i =? 0)%nat then f 1%nat - f 0%nat
  else if (i =? n - 1)%nat then f (n - 1)%nat - f (n - 2)%nat
  else (f (i + 1)%nat - f (i - 1)%nat) / 2.

(** [Iy, Ix = np.gradient(img)]: every axis needs two samples at least. *)
Definition np_gradient (img : image) : result (image * image) :=
  if (shape0 img <? 2)%nat || (shape1 img <? 2)%nat then Err ValueError
  else
    let Iy := {| shape0 := shape0 img; shape1 := shape1 img;
                 px := fun i j => gradient1 (shape0 img) (fun k => px img k j) i |} in
    let Ix := {| shape0 := shape0 img; shape1 := shape1 img;
                 px := fun i j => gradient1 (shape1 img) (fun k => px img i k) j |} in
    Ok (Iy, Ix).

(** The length of a broadcast axis, when the two lengths are compatible. *)
Definition bcast_dim (a b : nat) : option nat :=
  if (a =? b)%nat then Some a
  else if (a =? 1)%nat then Some b
  else if (b =? 1)%nat then Some a
  else None.

(** The index read on an axis of length [a] by a broadcast operation. *)
Definition bcast_idx (a i : nat) : nat := if (a =? 1)%nat then 0%nat else i.

(** [a - b] on two frames. *)
Definition image_sub (a b : image) : result image :=
  match bcast_dim (shape0 a) (shape0 b), bcast_dim (shape1 a) (shape1 b) with
  | Some h, Some w =>
      Ok {| shape0 := h; shape1 := w;
            px := fun i j =>
              px a (bcast_idx (shape0 a) i) (bcast_idx (shape1 a) j)
              - px b (bcast_idx (shape0 b) i) (bcast_idx (shape1 b) j) |}
  | _, _ => Err ValueError
  end.

(** An elementwise operation on two column vectors (shape (n, 1)). *)
Definition bcast_col (f : Q -> Q -> Q) (a b : list Q) : result (list Q) :=
  if (length a =? length b)%nat then Ok (map (fun ab => f (fst ab) (snd ab)) (combine a b))
  else match a, b with
       | [x], _ => Ok (map (fun y => f x y) b)
       | _, [y] => Ok (map (fun x => f x y) a)
       | _, _ => Err ValueError
       end.

(** ** 2x2 linear algebra *)

Definition mat2 : Set := ((Q * Q) * (Q * Q))%type.

Definition det2 (m : mat2) : Q :=
  let '((a, b), (c, d)) := m in a * d - b * c.

(** [np.linalg.inv]: a singular matrix raises [LinAlgError].  The test is
    exact here.  numpy raises where its LU factorisation meets a pivot that
    is exactly zero, which a matrix of zeros always does; a matrix that is
    singular without being zero may, after rounding, be inverted without an
    error.  The properties below that rely on a raise are stated for the
    zero matrix. *)
Definition np_linalg_inv (m : mat2) : result mat2 :=
  let '((a, b), (c, d)) := m in
  if Qeq_bool (det2 m) 0 then Err LinAlgError
  else Ok ((d / det2 m, - b / det2 m), (- c / det2 m, a / det2 m)).

(** [m @ v] for a 2x2 matrix and a 2-vector. *)
Definition mat2_vec (m : mat2) (v : Q * Q) : Q * Q :=
  let '((a, b), (c, d)) := m in
  (a * fst v + b * snd v, c * fst v + d * snd v).

(** [A.T @ A] for a design matrix given by its rows. *)
Definition AT_A (A : list (Q * Q)) : mat2 :=
  ((np_sum (map (fun r => fst r * fst r) A), np_sum (map (fun r => fst r * snd r) A)),
   (np_sum (map (fun r => snd r * fst r) A), np_sum (map (fun r => snd r * snd r) A))).

(** [-A.T @ t]: the unary minus applies to [A.T]. *)
Definition neg_AT_vec (A : list (Q * Q)) (t : list Q) : Q * Q :=
  (np_sum (map (fun rt => - fst (fst rt) * snd rt) (combine A t)),
   np_sum (map (fun rt => - snd (fst rt) * snd rt) (combine A t))).

(** ** [lucas_kanade] *)

(** The body of the loop over keypoints (lines 44-65): the row appended to
    [flow_vectors], components in the order of the returned array. *)
Definition lucas_kanade_at (Iy Ix It : image) (window_size w : Z) (kp : Q * Q)
  : result (Q * Q) :=
  let '(y, x) := kp in
  let y := py_round y in
  let x := py_round x in
  Iy_win <- reshape_col (centred Iy y x w) (window_size ^ 2) ;;
  Ix_win <- reshape_col (centred Ix y x w) (window_size ^ 2) ;;
  It_win <- reshape_col (centred It y x w) (window_size ^ 2) ;;
  let A := combine Ix_win Iy_win in
  inv_AT_A <- np_linalg_inv (AT_A A) ;;
  let neg_AT_b := neg_AT_vec A It_win in
  let flow_v := mat2_vec inv_AT_A neg_AT_b in
  Ok flow_v.

Definition lucas_kanade (img1 img2 : image) (keypoints : list (Q * Q))
  (window_size : Z) : result (list (Q * Q)) :=
  _ <- py_assert (window_size mod 2 =? 1)%Z ;;
  let w := (window_size / 2)%Z in
  '(Iy, Ix) <- np_gradient img1 ;;
  It <- image_sub img2 img1 ;;
  mapr (lucas_kanade_at Iy Ix It window_size w) keypoints.

(** ** [iterative_lucas_kanade] *)

(** [np.hstack((a, b))] of two (N, 2) arrays: the row counts must agree. *)
Definition np_hstack (a b : list (Q * Q)) : result (list ((Q * Q) * (Q * Q))) :=
  if (length a =? length b)%nat then Ok (combine a b) else Err ValueError.

(** [np.zeros(keypoints.shape)] *)
Definition np_zeros (keypoints : list (Q * Q)) : list (Q * Q) :=
  map (fun _ => (0, 0)) keypoints.

(** One pass of the inner loop (lines 123-144); [v] is held as the source
    holds it, [vx] first. *)
Definition ilk_iteration (img2 : image) (w : Z) (y x gy gx : Q)
  (A Ax Ay : list Q) (G_inv : mat2) (v : Q * Q) : result (Q * Q) :=
  let '(vx, vy) := v in
  let y2 := py_round (y + gy + vy) in
  let x2 := py_round (x + gx + vx) in
  let B := pdata (centred img2 y2 x2 w) in
  Ik <- bcast_col Qminus A B ;;
  Ik_Ax <- bcast_col Qmult Ik Ax ;;
  let bk_x := np_sum Ik_Ax in
  Ik_Ay <- bcast_col Qmult Ik Ay ;;
  let bk_y := np_sum Ik_Ay in
  let bk := (bk_x, bk_y) in
  let vk := mat2_vec G_inv bk in
  Ok (fst v + fst vk, snd v + snd vk).

(** The matrix [G] of lines 111-116, from the flattened derivative windows. *)
Definition G_matrix (Ax Ay : list Q) : mat2 :=
  let IxIx := np_sum (map (fun a => a ^ 2) Ax) in
  let IxIy := np_sum (map (fun a => fst a * snd a) (combine Ax Ay)) in
  let IyIy := np_sum (map (fun a => a ^ 2) Ay) in
  ((IxIx, IxIy), (IxIy, IyIy)).

(** [G] at a keypoint: the windows of [Ix] and [Iy] around its rounding. *)
Definition G_at (Iy Ix : image) (w : Z) (kp : Q * Q) : mat2 :=
  G_matrix (pdata (centred Ix (py_round (fst kp)) (py_round (snd kp)) w))
           (pdata (centred Iy (py_round (fst kp)) (py_round (snd kp)) w)).

(** The body of the loop over keypoints (lines 101-147). *)
Definition iterative_lucas_kanade_at (img1 img2 Iy Ix : image) (w : Z)
  (num_iters : nat) (row : (Q * Q) * (Q * Q)) : result (Q * Q) :=
  let '((y, x), (gy, gx)) := row in
  let v := (0, 0) in
  let y1 := py_round y in
  let x1 := py_round x in
  let A := pdata (centred img1 y1 x1 w) in
  let Ax := pdata (centred Ix y1 x1 w) in
  let Ay := pdata (centred Iy y1 x1 w) in
  let G := G_matrix Ax Ay in
  G_inv <- np_linalg_inv G ;;
  v <- for_state (fun v _ => ilk_iteration img2 w y x gy gx A Ax Ay G_inv v)
         v (seq 0 num_iters) ;;
  let '(vx, vy) := v in
  Ok (vy, vx).

Definition iterative_lucas_kanade (img1 img2 : image) (keypoints : list (Q * Q))
  (window_size : Z) (num_iters : nat) (g : option (list (Q * Q)))
  : result (list (Q * Q)) :=
  _ <- py_assert (window_size mod 2 =? 1)%Z ;;
  let g := match g with None => np_zeros keypoints | Some g => g end in
  let w := (window_size / 2)%Z in
  '(Iy, Ix) <- np_gradient img1 ;;
  rows <- np_hstack keypoints g ;;
  mapr (iterative_lucas_kanade_at img1 img2 Iy Ix w num_iters) rows.

(** ** [pyramid_lucas_kanade] *)

(** Arithmetic on (N, 2) arrays. *)
Definition vadd (a b : Q * Q) : Q * Q := (fst a + fst b, snd a + snd b).

(** [a + b] on two (N, 2) arrays, with numpy's broadcasting of a single
    row.  The list without rows stands for [np.array([])], the empty array
    that the source itself builds; the section on arrays with their shape
    treats an empty array of shape (0, 2). *)
Definition np_add (a b : list (Q * Q)) : result (list (Q * Q)) :=
  if (length a =? length b)%nat then Ok (map (fun ab => vadd (fst ab) (snd ab)) (combine a b))
  else match a, b with
       | [x], _ => Ok (map (fun y => vadd x y) b)
       | _, [y] => Ok (map (fun x => vadd x y) a)
       | _, _ => Err ValueError
       end.

(** [s * a] and [a / s] for a scalar [s]. *)
Definition np_scale (s : Q) (a : list (Q * Q)) : list (Q * Q) :=
  map (fun r => (s * fst r, s * snd r)) a.
Definition np_div_scalar (a : list (Q * Q)) (s : Q) : list (Q * Q) :=
  map (fun r => (fst r / s, snd r / s)) a.

(** [t[i]] on a tuple. *)
Definition py_index {A : Type} (t : list A) (i : nat) : result A :=
  match nth_error t i with
  | Some a => Ok a
  | None => Err IndexError
  end.

Section Pyramid.

(** The layers that skimage's [pyramid_gaussian] yields for a frame, a
    maximal layer and a downscale factor: an external collaborator, of
    which the source only reads [pyramid[L]]. *)
Variable pyramid_layers : image -> nat -> Q -> list image.

(** [tuple(pyramid_gaussian(img, max_layer=level, downscale=scale))].
    The builder refuses a downscale factor that does not exceed 1 (the
    spec's [s (>1)]) before it yields anything, so [scale ** L] below is
    never zero when it is reached. *)
Definition pyramid_gaussian (img : image) (max_layer : nat) (downscale : Q)
  : result (list image) :=
  if Qle_bool downscale 1 then Err ValueError
  else Ok (pyramid_layers img max_layer downscale).

(** The body of the loop over levels (lines 181-190); the state is the
    guess [g] and the last displacement [d] (unbound before the first
    level). *)
Definition pyramid_level (pyramid1 pyramid2 : list image)
  (keypoints : list (Q * Q)) (window_size : Z) (num_iters : nat) (scale : Q)
  (st : list (Q * Q) * option (list (Q * Q))) (L : nat)
  : result (list (Q * Q) * option (list (Q * Q))) :=
  let g := fst st in
  img1_L <- py_index pyramid1 L ;;
  img2_L <- py_index pyramid2 L ;;
  let keypoints_L := np_div_scalar keypoints (scale ^ Z.of_nat L) in
  d <- iterative_lucas_kanade img1_L img2_L keypoints_L window_size num_iters (Some g) ;;
  if negb (L =? 0)%nat then
    gd <- np_add g d ;;
    Ok (np_scale scale gd, Some d)
  else Ok (g, Some d).

(** [range(level, -1, -1)] *)
Definition levels_down (level : nat) : list nat := rev (seq 0 (S level)).

Definition pyramid_lucas_kanade (img1 img2 : image) (keypoints : list (Q * Q))
  (window_size : Z) (num_iters : nat) (level : nat) (scale : Q)
  : result (list (Q * Q)) :=
  pyramid1 <- pyramid_gaussian img1 level scale ;;
  pyramid2 <- pyramid_gaussian img2 level scale ;;
  let g := np_zeros keypoints in
  '(g, d) <- for_state
               (pyramid_level pyramid1 pyramid2 keypoints window_size num_iters scale)
               (g, None) (levels_down level) ;;
  match d with
  | None => Err UnboundLocalError
  | Some d => np_add g d
  end.

End Pyramid.

(** ** The two flow functions on arrays with their shape

    An array of keypoints, guesses or flow vectors as numpy holds it: of
    shape (N, 2) with N >= 0, or [np.array([])], of shape (0,), which
    [np.array(flow_vectors)] builds from a Python list without rows.  The
    two differ only for N = 0, where numpy does not broadcast one against
    the other. *)
Inductive ndarray : Type :=
| Arr2 (rows : list (Q * Q))
| Arr1_empty.

(** [np.array(flow_vectors)] of a Python list of pairs. *)
Definition np_array (flow_vectors : list (Q * Q)) : ndarray :=
  match flow_vectors with
  | [] => Arr1_empty
  | _ :: _ => Arr2 flow_vectors
  end.

(** [np.zeros(a.shape)] *)
Definition nd_zeros (a : ndarray) : ndarray :=
  match a with
  | Arr2 rows => Arr2 (np_zeros rows)
  | Arr1_empty => Arr1_empty
  end.

(** The rows of [np.hstack((a, b))]: the two arrays must have as many
    dimensions, and as many rows. *)
Definition nd_hstack (a b : ndarray) : result (list ((Q * Q) * (Q * Q))) :=
  match a, b with
  | Arr2 a, Arr2 b => np_hstack a b
  | Arr1_empty, Arr1_empty => Ok []
  | _, _ => Err ValueError
  end.

(** [a + b]: a trailing axis of length 2 does not broadcast against one of
    length 0. *)
Definition nd_add (a b : ndarray) : result ndarray :=
  match a, b with
  | Arr2 a, Arr2 b => r <- np_add a b ;; Ok (Arr2 r)
  | Arr1_empty, Arr1_empty => Ok Arr1_empty
  | _, _ => Err ValueError
  end.

(** [s * a] and [a / s] keep the shape. *)
Definition nd_scale (s : Q) (a : ndarray) : ndarray :=
  match a with
  | Arr2 rows => Arr2 (np_scale s rows)
  | Arr1_empty => Arr1_empty
  end.
Definition nd_div_scalar (a : ndarray) (s : Q) : ndarray :=
  match a with
  | Arr2 rows => Arr2 (np_div_scalar rows s)
  | Arr1_empty => Arr1_empty
  end.

(** [iterative_lucas_kanade] (lines 72-149) with the shapes of its
    arguments and of its result. *)
Definition iterative_lucas_kanade_nd (img1 img2 : image) (keypoints : ndarray)
  (window_size : Z) (num_iters : nat) (g : option ndarray) : result ndarray :=
  _ <- py_assert (window_size mod 2 =? 1)%Z ;;
  let g := match g with None => nd_zeros keypoints | Some g => g end in
  let w := (window_size / 2)%Z in
  '(Iy, Ix) <- np_gradient img1 ;;
  rows <- nd_hstack keypoints g ;;
  flow_vectors <- mapr (iterative_lucas_kanade_at img1 img2 Iy Ix w num_iters) rows ;;
  Ok (np_array flow_vectors).

Section PyramidShaped.

Variable pyramid_layers : image -> nat -> Q -> list image.

(** The body of the loop over levels (lines 181-190). *)
Definition pyramid_level_nd (pyramid1 pyramid2 : list image)
  (keypoints : ndarray) (window_size : Z) (num_iters : nat) (scale : Q)
  (st : ndarray * option ndarray) (L : nat)
  : result (ndarray * option ndarray) :=
  let g := fst st in
  img1_L <- py_index pyramid1 L ;;
  img2_L <- py_index pyramid2 L ;;
  let keypoints_L := nd_div_scalar keypoints (scale ^ Z.of_nat L) in
  d <- iterative_lucas_kanade_nd img1_L img2_L keypoints_L window_size num_iters (Some g) ;;
  if negb (L =? 0)%nat then
    gd <- nd_add g d ;;
    Ok (nd_scale scale gd, Some d)
  else Ok (g, Some d).

(** [pyramid_lucas_kanade] (lines 152-193) with the shapes of its arrays. *)
Definition pyramid_lucas_kanade_nd (img1 img2 : image) (keypoints : ndarray)
  (window_size : Z) (num_iters : nat) (level : nat) (scale : Q)
  : result ndarray :=
  pyramid1 <- pyramid_gaussian pyramid_layers img1 level scale ;;
  pyramid2 <- pyramid_gaussian pyramid_layers img2 level scale ;;
  let g := nd_zeros keypoints in
  '(g, d) <- for_state
               (pyramid_level_nd pyramid1 pyramid2 keypoints window_size num_iters scale)
               (g, None) (levels_down level) ;;
  match d with
  | None => Err UnboundLocalError
  | Some d => nd_add g d
  end.

End PyramidShaped.

(** ** [compute_error] *)

(** Float arithmetic on values that may be non-finite. *)
Definition fneg (a : fnum) : fnum :=
  match a with
  | Fin q => Fin (- q)
  | PInf => NInf
  | NInf => PInf
  | NaN => NaN
  end.

Definition fadd (a b : fnum) : fnum :=
  match a, b with
  | NaN, _ | _, NaN => NaN
  | Fin p, Fin q => Fin (p + q)
  | PInf, NInf | NInf, PInf => NaN
  | PInf, _ | _, PInf => PInf
  | NInf, _ | _, NInf => NInf
  end.

Definition fsub (a b : fnum) : fnum := fadd a (fneg b).

(** The sign of an infinity times a finite factor; [inf * 0] is [nan]. *)
Definition finf_times (pos : bool) (q : Q) : fnum :=
  match Qcompare q 0 with
  | Eq => NaN
  | Gt => if pos then PInf else NInf
  | Lt => if pos then NInf else PInf
  end.

Definition fmul (a b : fnum) : fnum :=
  match a, b with
  | NaN, _ | _, NaN => NaN
  | Fin p, Fin q => Fin (p * q)
  | PInf, Fin q | Fin q, PInf => finf_times true q
  | NInf, Fin q | Fin q, NInf => finf_times false q
  | PInf, PInf | NInf, NInf => PInf
  | PInf, NInf | NInf, PInf => NInf
  end.

Definition fdiv (a b : fnum) : fnum :=
  match a, b with
  | NaN, _ | _, NaN => NaN
  | Fin p, Fin q => np_div p q
  | Fin _, _ => Fin 0
  | PInf, Fin q => if Qle_bool 0 q then PInf else NInf
  | NInf, Fin q => if Qle_bool 0 q then NInf else PInf
  | _, _ => NaN
  end.

(** [a > t] for a float [a] and a finite [t]: false when [a] is [nan]. *)
Definition fgtb (a : fnum) (t : Q) : bool :=
  match a with
  | Fin q => negb (Qle_bool q t)
  | PInf => true
  | NInf => false
  | NaN => false
  end.

Definition fsum (l : list fnum) : fnum := fold_right fadd (Fin 0) l.

(** [np.mean] of an array of floats; the mean of an empty array is [nan]. *)
Definition fmean (l : list fnum) : fnum :=
  fdiv (fsum l) (Fin (inject_Z (Z.of_nat (length l)))).

Definition np_mean (l : list Q) : fnum := fmean (map Fin l).

Section Tracker.

(** [np.sqrt] on a finite non-negative float. *)
Variable np_sqrt : Q -> Q.

Definition fsqrt (a : fnum) : fnum :=
  match a with
  | Fin q => if Qle_bool 0 q then Fin (np_sqrt q) else NaN
  | PInf => PInf
  | NInf => NaN
  | NaN => NaN
  end.

(** [np.std]: the root of the mean squared deviation from the mean.  The
    mean is exact here; in float64 it is exact for a constant array of an
    integer value, not for a constant array in general.  The properties
    below that rely on a standard deviation of zero are stated for integer
    values. *)
Definition np_std (l : list Q) : fnum :=
  let arrmean := np_mean l in
  let x := map (fun a => fsub (Fin a) arrmean) l in
  fsqrt (fmean (map (fun a => fmul a a) x)).

(** [(patch - np.mean(patch)) / np.std(patch)] *)
Definition normalize (l : list Q) : list fnum :=
  let m := np_mean l in
  let s := np_std l in
  map (fun a => fdiv (fsub (Fin a) m) s) l.

Definition compute_error (patch1 patch2 : patch) : result fnum :=
  _ <- py_assert (if Nat.eqb (fst (pshape patch1)) (fst (pshape patch2))
                  then Nat.eqb (snd (pshape patch1)) (snd (pshape patch2))
                  else false) ;;
  let patch1 := normalize (pdata patch1) in
  let patch2 := normalize (pdata patch2) in
  let diff := map (fun ab => fsub (fst ab) (snd ab)) (combine patch1 patch2) in
  let error := fmean (map (fun a => fmul a a) diff) in
  Ok error.

(** ** [track_features] *)

(** The test of lines 265-270 on the rounded next position. *)
Definition outside_border (J : image) (exclude_border yj xj : Z) : bool :=
  (yj >? Z.of_nat (shape0 J) - exclude_border - 1)%Z
  || (yj <? exclude_border)%Z
  || (xj >? Z.of_nat (shape1 J) - exclude_border - 1)%Z
  || (xj <? exclude_border)%Z.

(** The body of the loop over keypoints (lines 255-280): [None] is a
    [continue], [Some p] is the row appended to [new_keypoints]. *)
Definition keypoint_fate (I J : image) (error_thresh : Q) (exclude_border : Z)
  (w : Z) (row : (Q * Q) * (Q * Q)) : result (option (Q * Q)) :=
  let '((yi, xi), (yj, xj)) := row in
  let yi := py_round yi in
  let xi := py_round xi in
  let yj := py_round yj in
  let xj := py_round xj in
  if outside_border J exclude_border yj xj then Ok None
  else
    let patchI := centred I yi xi w in
    let patchJ := centred J yj xj w in
    error <- compute_error patchI patchJ ;;
    if fgtb error error_thresh then Ok None
    else Ok (Some (inject_Z yj, inject_Z xj)).

Definition flow_fn : Type :=
  image -> image -> list (Q * Q) -> result (list (Q * Q)).

(** One frame transition (lines 249-282): the new [kp_curr]. *)
Definition track_pair (optflow_fn : flow_fn) (error_thresh : Q)
  (exclude_border : Z) (w : Z) (I J : image) (kp_curr : list (Q * Q))
  : result (list (Q * Q)) :=
  flow_vectors <- optflow_fn I J kp_curr ;;
  kp_next <- np_add kp_curr flow_vectors ;;
  rows <- np_hstack kp_curr kp_next ;;
  filter_mapr (keypoint_fate I J error_thresh exclude_border w) rows.

(** The body of the loop over frame indices; the state is [kp_curr] and
    [trajs]. *)
Definition track_frame (frames : list image) (optflow_fn : flow_fn)
  (error_thresh : Q) (exclude_border : Z) (w : Z)
  (st : list (Q * Q) * list (list (Q * Q))) (i : nat)
  : result (list (Q * Q) * list (list (Q * Q))) :=
  let '(kp_curr, trajs) := st in
  I <- py_index frames i ;;
  J <- py_index frames (i + 1) ;;
  kp_curr <- track_pair optflow_fn error_thresh exclude_border w I J kp_curr ;;
  Ok (kp_curr, trajs ++ [kp_curr]).

Definition track_features (frames : list image) (keypoints : list (Q * Q))
  (error_thresh : Q) (optflow_fn : flow_fn) (exclude_border : Z)
  : result (list (list (Q * Q))) :=
  let kp_curr := keypoints in
  let trajs := [kp_curr] in
  let patch_size := 3%Z in
  let w := (patch_size / 2)%Z in
  '(_, trajs) <- for_state
                   (track_frame frames optflow_fn error_thresh exclude_border w)
                   (kp_curr, trajs) (seq 0 (length frames - 1)) ;;
  Ok trajs.

End Tracker.

(** ** The refiner and the coordinator as the spec words them

    The definitions of this part follow sections 4.3 and 4.4 of the spec,
    not the source, and write the arithmetic out; the refinement theorems
    below compare them with the source. *)

(** Section 4.3 written out pixel by pixel, for windows that lie inside
    the frames.  The window of half-width [w] around pixel [(r, c)] is
    inside a frame when [w <= r], [r + w] is a row, [w <= c] and [c + w] is
    a column. *)
Definition inside (img : image) (r c w : Z) : bool :=
  (0 <=? w)%Z
  && (w <=? r)%Z && (r + w <? Z.of_nat (shape0 img))%Z
  && (w <=? c)%Z && (c + w <? Z.of_nat (shape1 img))%Z.

(** The derivative of a frame along x (across the columns) at pixel
    [(i, j)]: half the difference of the two neighbours in the row, and the
    difference of the two nearest pixels of the row on its first and last
    column. *)
Definition d_dx (img : image) (i j : nat) : Q :=
  if (j =? 0)%nat then px img i 1%nat - px img i 0%nat
  else if (j =? shape1 img - 1)%nat
       then px img i (shape1 img - 1)%nat - px img i (shape1 img - 2)%nat
       else (px img i (j + 1)%nat - px img i (j - 1)%nat) / 2.

(** The derivative along y (down the rows). *)
Definition d_dy (img : image) (i j : nat) : Q :=
  if (i =? 0)%nat then px img 1%nat j - px img 0%nat j
  else if (i =? shape0 img - 1)%nat
       then px img (shape0 img - 1)%nat j - px img (shape0 img - 2)%nat j
       else (px img (i + 1)%nat j - px img (i - 1)%nat j) / 2.

(** The sum of [F i j] over the offsets [(i, j)] of an [n] x [n] window,
    row by row. *)
Definition window_sum (n : nat) (F : nat -> nat -> Q) : Q :=
  fold_right Qplus 0
    (map (fun o => F (fst o) (snd o)) (list_prod (seq 0 n) (seq 0 n))).

(** [K] updates of the flow by a step that is defined where the target
    window is inside the frame. *)
Fixpoint iterate (K : nat) (step : Q * Q -> option (Q * Q)) (v : Q * Q)
  : option (Q * Q) :=
  match K with
  | O => Some v
  | Datatypes.S k =>
      match step v with
      | Some v' => iterate k step v'
      | None => None
      end
  end.

(** The refiner for one keypoint [kp = (y, x)] with guess [g = (gy, gx)].
    With [(r, c)] the rounded keypoint, [A], [Ax] and [Ay] are the
    reference frame and its two derivatives on the window around [(r, c)];
    G = [[Sxx, Sxy], [Sxy, Syy]] with Sxx = sum Ax^2, Sxy = sum Ax Ay,
    Syy = sum Ay^2, and G^-1 = [[Syy, -Sxy], [-Sxy, Sxx]] / det G, from the
    reference frame alone.  Each of the [K] steps reads the target frame on
    the window [B] around rounded(kp + g + v), with v = (vx, vy), and adds
    G^-1 b to v, where b = (sum (A - B) Ax, sum (A - B) Ay).  The result is
    (vy, vx).  There is none when a window is not inside its frame or G is
    singular. *)
Definition refiner_explicit (img1 img2 : image) (window_size : Z) (K : nat)
  (kp g : Q * Q) : option (Q * Q) :=
  let w := (window_size / 2)%Z in
  let n := Z.to_nat (2 * w + 1) in
  let r := py_round (fst kp) in
  let c := py_round (snd kp) in
  if negb (inside img1 r c w) then None
  else
    let r0 := Z.to_nat (r - w) in
    let c0 := Z.to_nat (c - w) in
    let A (i j : nat) := px img1 (r0 + i)%nat (c0 + j)%nat in
    let Ax (i j : nat) := d_dx img1 (r0 + i)%nat (c0 + j)%nat in
    let Ay (i j : nat) := d_dy img1 (r0 + i)%nat (c0 + j)%nat in
    let Sxx := window_sum n (fun i j => Ax i j ^ 2) in
    let Sxy := window_sum n (fun i j => Ax i j * Ay i j) in
    let Syy := window_sum n (fun i j => Ay i j ^ 2) in
    let det := Sxx * Syy - Sxy * Sxy in
    if Qeq_bool det 0 then None
    else
      let step (v : Q * Q) : option (Q * Q) :=
        let r2 := py_round (fst kp + fst g + snd v) in
        let c2 := py_round (snd kp + snd g + fst v) in
        if negb (inside img2 r2 c2 w) then None
        else
          let B (i j : nat) :=
            px img2 (Z.to_nat (r2 - w) + i)%nat (Z.to_nat (c2 - w) + j)%nat in
          let b_x := window_sum n (fun i j => (A i j - B i j) * Ax i j) in
          let b_y := window_sum n (fun i j => (A i j - B i j) * Ay i j) in
          Some (fst v + (Syy / det * b_x + - Sxy / det * b_y),
                snd v + (- Sxy / det * b_x + Sxx / det * b_y)) in
      match iterate K step (0, 0) with
      | Some v => Some (snd v, fst v)
      | None => None
      end.

(** Section 4.4: from level [l] down to 0, refine the keypoints rescaled to
    the level with guess [g]; above level 0 the next guess is s (g + d), at
    level 0 the flow is g + d. *)
Fixpoint coarse_to_fine
  (refine : nat -> list (Q * Q) -> list (Q * Q) -> result (list (Q * Q)))
  (keypoints : list (Q * Q)) (s : Q) (l : nat) (g : list (Q * Q))
  : result (list (Q * Q)) :=
  d <- refine l (np_div_scalar keypoints (s ^ Z.of_nat l)) g ;;
  gd <- np_add g d ;;
  match l with
  | O => Ok gd
  | Datatypes.S l' => coarse_to_fine refine keypoints s l' (np_scale s gd)
  end.

(** Section 4.4 with its arithmetic written out on the rows: at level [l]
    every keypoint [(y, x)] becomes [(y / s^l, x / s^l)]; the refiner runs
    on layer [l] of the two pyramids with the guess [g]; row [j] of [g + d]
    is [(gy_j + dy_j, gx_j + dx_j)]; above level 0 the next guess has the
    rows [(s * (gy_j + dy_j), s * (gx_j + dx_j))], and at level 0 the rows
    of [g + d] are the flow. *)
Fixpoint coarse_to_fine_flow (pyramid1 pyramid2 : list image) (window_size : Z)
  (num_iters : nat) (keypoints : list (Q * Q)) (s : Q) (l : nat)
  (g : list (Q * Q)) : result (list (Q * Q)) :=
  match nth_error pyramid1 l, nth_error pyramid2 l with
  | Some img1_l, Some img2_l =>
      let keypoints_l :=
        map (fun k => (fst k / s ^ Z.of_nat l, snd k / s ^ Z.of_nat l)) keypoints in
      d <- iterative_lucas_kanade img1_l img2_l keypoints_l window_size
             num_iters (Some g) ;;
      let gd :=
        map (fun r => (fst (fst r) + fst (snd r), snd (fst r) + snd (snd r)))
          (combine g d) in
      match l with
      | O => Ok gd
      | Datatypes.S l' =>
          coarse_to_fine_flow pyramid1 pyramid2 window_size num_iters keypoints
            s l' (map (fun r => (s * fst r, s * snd r)) gd)
      end
  | _, _ => Err IndexError
  end.

(** The refiner run on level [l] of two pyramids. *)
Definition refine_on (pyramid1 pyramid2 : list image) (window_size : Z)
  (num_iters : nat) (l : nat) (keypoints g : list (Q * Q))
  : result (list (Q * Q)) :=
  img1_l <- py_index pyramid1 l ;;
  img2_l <- py_index pyramid2 l ;;
  iterative_lucas_kanade img1_l img2_l keypoints window_size num_iters (Some g).

(** ** Vocabulary of the tracker's properties *)

(** [k] keeps some elements of [l], in their order. *)
Inductive subseq {A : Type} : list A -> list A -> Prop :=
| subseq_nil : subseq [] []
| subseq_skip (a : A) (k l : list A) : subseq k l -> subseq k (a :: l)
| subseq_take (a : A) (k l : list A) : subseq k l -> subseq (a :: k) (a :: l).

(** Consecutive elements of [a :: l] are related by [R], which is told
    their position: [R i] relates element [i] to element [i + 1]. *)
Fixpoint chain_from {A : Type} (R : nat -> A -> A -> Prop) (i : nat) (a : A)
  (l : list A) : Prop :=
  match l with
  | [] => True
  | b :: l' => R i a b /\ chain_from R (S i) b l'
  end.

(** The row that the tracker appends for a candidate: the rounded next
    position [[yj, xj]] of lines 262-263 and 280. *)
Definition rounded_next (row : (Q * Q) * (Q * Q)) : Q * Q :=
  (inject_Z (py_round (fst (snd row))), inject_Z (py_round (snd (snd row)))).

(** The candidate [row] is appended by the loop body: its fate is neither a
    [continue] nor a raise. *)
Definition survives (np_sqrt : Q -> Q) (I J : image) (error_thresh : Q)
  (exclude_border w : Z) (row : (Q * Q) * (Q * Q)) : bool :=
  match keypoint_fate np_sqrt I J error_thresh exclude_border w row with
  | Ok (Some _) => true
  | _ => false
  end.

(** Transition [i] of a tracking run, from entry [prev] to entry [next]:
    the flow function is run on frames [i] and [i + 1] and the keypoints
    [prev]; [kp_next = prev + flows] has one row per keypoint; [next] lists,
    in the order of [prev], the rounded next positions of the candidates
    [(prev[j], kp_next[j])] that are appended. *)
Definition tracked_step (np_sqrt : Q -> Q) (frames : list image)
  (optflow_fn : flow_fn) (error_thresh : Q) (exclude_border w : Z)
  (i : nat) (prev next : list (Q * Q)) : Prop :=
  exists (I J : image) (flows kp_next : list (Q * Q)),
    nth_error frames i = Some I
    /\ nth_error frames (S i) = Some J
    /\ optflow_fn I J prev = Ok flows
    /\ np_add prev flows = Ok kp_next
    /\ length kp_next = length prev
    /\ next = map rounded_next
                (filter (survives np_sqrt I J error_thresh exclude_border w)
                   (combine prev kp_next)).

(** The state of the loop over levels in the row model: both arrays have
    one row per keypoint. *)
Definition level_state_ok (keypoints : list (Q * Q))
  (st : list (Q * Q) * option (list (Q * Q))) : Prop :=
  length (fst st) = length keypoints
  /\ match snd st with
     | Some d => length d = length keypoints
     | None => True
     end.

(** The same state as arrays with their shape. *)
Definition level_state_nd (st : list (Q * Q) * option (list (Q * Q)))
  : ndarray * option ndarray :=
  (np_array (fst st), option_map np_array (snd st)).

(** All entries of a patch are the same number. *)
Definition constant_patch (p : patch) : Prop :=
  exists c : Q, forall a, In a (pdata p) -> a == c.

(** All entries of a patch are the same integer, small enough for the sums
    of up to nine of them to be exact in float64: the mean of such a patch
    is computed exactly. *)
Definition integer_constant_patch (p : patch) : Prop :=
  exists c : Z, (Z.abs c < 2 ^ 49)%Z /\ forall a, In a (pdata p) -> a == inject_Z c.

(** A float that is not negative: a finite non-negative number, [inf] or
    [nan]. *)
Definition fnonneg (a : fnum) : Prop :=
  match a with
  | Fin q => 0 <= q
  | PInf => True
  | NInf => False
  | NaN => True
  end.

(** The index pairs that a 2-D slice reads, row-major, on an array of
    shape [h] x [w]. *)
Definition window_indices (h w : nat) (r0 r1 c0 c1 : Z) : list (nat * nat) :=
  flat_map (fun i => map (fun j => (i, j)) (py_slice c0 c1 w)) (py_slice r0 r1 h).

(** Equality of 2x2 matrices up to the representation of fractions. *)
Definition mat2_eq (m n : mat2) : Prop :=
  fst (fst m) == fst (fst n) /\ snd (fst m) == snd (fst n)
  /\ fst (snd m) == fst (snd n) /\ snd (snd m) == snd (snd n).

(** A rational square root for running the tracker: exact on squares of
    rationals, rounded down otherwise, and zero only at zero. *)
Definition sqrt_down (q : Q) : Q :=
  Z.sqrt (Qnum q * Zpos (Qden q)) # Qden q.

(** ** Frames used in the examples *)

Definition frame_of (h w : nat) (f : Z -> Z -> Z) : image :=
  {| shape0 := h; shape1 := w;
     px := fun i j => inject_Z (f (Z.of_nat i) (Z.of_nat j)) |}.

(** A 5x5 frame and the same scene moved one column to the right. *)
Definition shift_ref : image := frame_of 5 5 (fun i j => i * j)%Z.
Definition shift_next : image := frame_of 5 5 (fun i j => i * (j - 1))%Z.

(** A textured 12x12 frame. *)
Definition textured : image := frame_of 12 12 (fun i j => i * i + 3 * j * j + i * j)%Z.

(** A 5x10 frame, textured in its left half and flat in its right half. *)
Definition half_flat : image :=
  frame_of 5 10 (fun i j => if j <? 5 then i * i + 3 * j * j + i * j else 7)%Z.

(** A frame whose 3x3 centre is flat inside a textured surround. *)
Definition flat_centre : image :=
  frame_of 11 11 (fun i j => if (Z.abs (i - 5) <=? 1) && (Z.abs (j - 5) <=? 1)
                             then 0 else i * i + 3 * j * j + i * j)%Z.

(** The refiner with a 5x5 window and two iterations, as an [optflow_fn]. *)
Definition ilk5 : flow_fn :=
  fun I J keypoints => iterative_lucas_kanade I J keypoints 5 2 None.

(** Four keypoints on the textured frame, one of them between pixels, and
    the three that survive a transition between two copies of the frame. *)
Definition four_keypoints : list (Q * Q) :=
  [(5, 6); (27 # 5, 13 # 2); (4, 6); (6, 6)].
Definition three_survivors : list (Q * Q) := [(5, 6); (5, 6); (6, 6)].

(** * Properties *)

(** ** IoU *)

Lemma IoU_identical_boxes :
  exists q, IoU (1, 1, 4, 4) (1, 1, 4, 4) = Ok (Fin q) /\ q == 1.
Proof. eexists; split; [vm_compute; reflexivity | reflexivity]. Qed.

Lemma IoU_partial_overlap :
  exists q, IoU (0, 0, 4, 4) (2, 2, 4, 4) = Ok (Fin q) /\ q == 4 # 28.
Proof. eexists; split; [vm_compute; reflexivity | reflexivity]. Qed.

Lemma Qmax_0_r_nonneg (x : Q) : 0 <= x -> Qmax x 0 = x.
Proof.
  intros H. unfold Qmax, GenericMinMax.gmax.
  destruct (Qcompare x 0) eqn:E; try reflexivity.
  apply Qlt_alt in E. exfalso. exact (Qlt_not_le _ _ E H).
Qed.

(** X23.  Where the two boxes overlap on both axes, the source's score is the
    clamped one. *)
Lemma IoU_overlapping_boxes (x1 y1 w1 h1 x2 y2 w2 h2 : Q) :
  0 <= Qmin (x1 + w1) (x2 + w2) - Qmax x1 x2 ->
  0 <= Qmin (y1 + h1) (y2 + h2) - Qmax y1 y2 ->
  IoU (x1, y1, w1, h1) (x2, y2, w2, h2)
  = Ok (IoU_clamped (x1, y1, w1, h1) (x2, y2, w2, h2)).
Proof.
  intros Hx Hy. unfold IoU, IoU_clamped, np_amax_axis, np_amax2, np_amin2.
  cbn [Z.eqb orb bind]. rewrite (Qmax_0_r_nonneg _ Hx), (Qmax_0_r_nonneg _ Hy).
  reflexivity.
Qed.

(** C2.  The overlap extents are not clamped: [np.amax(xB - xA, 0)] reads
    its second argument as an axis and returns [xB - xA] unchanged.  For the
    disjoint boxes (0,0,2,2) and (10,10,2,2) both extents are -8, the
    "intersection" is 64, the "union" is -56 and the score is -8/7, where a
    clamped computation gives 0. *)
Theorem IoU_disjoint_boxes_not_clamped :
  exists q, IoU (0, 0, 2, 2) (10, 10, 2, 2) = Ok (Fin q)
            /\ q == - (8 # 7)
            /\ fnum_eq (IoU_clamped (0, 0, 2, 2) (10, 10, 2, 2)) (Fin 0).
Proof.
  exists (-64 # 56). split; [vm_compute; reflexivity | split]; reflexivity.
Qed.

(** ** Rounding *)

(** [int(round(q))] is an integer nearest to [q], the even one of the two
    when [q] is half-way. *)
Lemma py_round_nearest (q : Q) : Qabs (q - inject_Z (py_round q)) <= 1 # 2.
Proof.
  unfold py_round.
  pose proof (Qfloor_le q) as Hl. pose proof (Qlt_floor q) as Hu.
  rewrite inject_Z_plus in Hu. change (inject_Z 1) with 1 in Hu.
  apply Qabs_Qle_condition.
  destruct (Qcompare (q - inject_Z (Qfloor q)) (1 # 2)) eqn:E.
  - apply Qeq_alt in E.
    destruct (Z.even (Qfloor q));
      [|rewrite inject_Z_plus; change (inject_Z 1) with 1]; split; lra.
  - apply Qlt_alt in E. split; lra.
  - apply Qgt_alt in E. rewrite inject_Z_plus; change (inject_Z 1) with 1.
    split; lra.
Qed.

Lemma py_round_half_way :
  py_round (1 # 2) = 0%Z /\ py_round (3 # 2) = 2%Z /\ py_round (5 # 2) = 2%Z
  /\ py_round (- (1 # 2)) = 0%Z /\ py_round (- (3 # 2)) = (-2)%Z.
Proof. repeat split; reflexivity. Qed.

(** ** The single-level solver *)

Lemma shift_next_is_shift_ref_moved :
  forall i j : nat, px shift_next i (S j) == px shift_ref i j.
Proof.
  intros i j. unfold shift_next, shift_ref, frame_of; cbn [px].
  unfold Qeq, inject_Z; cbn [Qnum Qden].
  rewrite Nat2Z.inj_succ. ring.
Qed.

(** C1.  On a scene that moves one column to the right, (dy, dx) = (0, 1),
    [lucas_kanade] returns the row [1, 0]: the solution of the normal
    equations for A = [Ix | Iy] has the x component first and is appended
    unswapped, while [iterative_lucas_kanade] returns [0, 1] on the same
    input. *)
Theorem lucas_kanade_reports_dx_first :
  (exists a b, lucas_kanade shift_ref shift_next [(2, 2)] 3 = Ok [(a, b)]
               /\ a == 1 /\ b == 0)
  /\ (exists a b, iterative_lucas_kanade shift_ref shift_next [(2, 2)] 3 3 None
                  = Ok [(a, b)]
                  /\ a == 0 /\ b == 1).
Proof.
  split; eexists; eexists; (split; [vm_compute; reflexivity | split; reflexivity]).
Qed.

(** ** Loops *)

Lemma mapr_ext {A B : Type} (f g : A -> result B) (l : list A) :
  (forall a, In a l -> f a = g a) -> mapr f l = mapr g l.
Proof.
  induction l as [|a l IH]; intros E; [reflexivity|].
  cbn [mapr]. rewrite (E a (or_introl eq_refl)), IH; [reflexivity|].
  intros b Hb; apply E; right; exact Hb.
Qed.

Lemma mapr_length {A B : Type} (f : A -> result B) (l : list A) (out : list B) :
  mapr f l = Ok out -> length out = length l.
Proof.
  revert out; induction l as [|a l IH]; intros out; cbn [mapr].
  - intros [= <-]; reflexivity.
  - destruct (f a) as [b|e]; cbn [bind]; [|discriminate].
    destruct (mapr f l) as [bs|e]; cbn [bind]; [|discriminate].
    intros [= <-]; cbn [length]; f_equal; apply IH; reflexivity.
Qed.

Lemma mapr_Ok_all {A B : Type} (f : A -> result B) (l : list A) (out : list B) :
  mapr f l = Ok out -> forall a, In a l -> exists b, f a = Ok b.
Proof.
  revert out; induction l as [|a l IH]; intros out; cbn [mapr]; [intros _ ? []|].
  destruct (f a) as [b|e] eqn:Ea; cbn [bind]; [|discriminate].
  destruct (mapr f l) as [bs|e]; cbn [bind]; [|discriminate].
  intros _ x [<-|Hx]; [exists b; exact Ea | exact (IH bs eq_refl x Hx)].
Qed.

(** ** The iterative refiner *)

Lemma combine_map_map {A B C : Type} (f : A -> B) (g : A -> C) (l : list A) :
  combine (map f l) (map g l) = map (fun x => (f x, g x)) l.
Proof.
  induction l as [|a l IH]; [reflexivity|]. cbn [map combine]. rewrite IH.
  reflexivity.
Qed.

Lemma py_slice_inside (s e : Z) (n : nat) :
  (0 <= s)%Z -> (s <= e)%Z -> (e <= Z.of_nat n)%Z ->
  py_slice s e n = seq (Z.to_nat s) (Z.to_nat (e - s)).
Proof.
  intros Hs Hse He. unfold py_slice.
  destruct (Z.ltb_spec s 0); [lia|]. destruct (Z.ltb_spec e 0); [lia|].
  rewrite !Z.min_l by lia. reflexivity.
Qed.

Lemma seq_add (a n : nat) : seq a n = map (Nat.add a) (seq 0 n).
Proof.
  induction a as [|a IH]; [symmetry; apply map_id|].
  rewrite <- seq_shift, IH, map_map. reflexivity.
Qed.

Lemma flat_map_offsets (F : nat -> nat -> Q) (r0 c0 : nat) (cols : list nat) :
  forall rows : list nat,
    flat_map (fun i => map (fun j => F i j) (map (Nat.add c0) cols))
      (map (Nat.add r0) rows)
    = map (fun o => F (r0 + fst o)%nat (c0 + snd o)%nat) (list_prod rows cols).
Proof.
  induction rows as [|i rows IH]; [reflexivity|].
  cbn [map flat_map list_prod]. rewrite map_app, !map_map, IH. reflexivity.
Qed.

(** A window that is inside the frame, read offset by offset. *)
Lemma centred_offsets (img : image) (r c w : Z) :
  inside img r c w = true ->
  pdata (centred img r c w)
  = map (fun o => px img (Z.to_nat (r - w) + fst o)%nat
                    (Z.to_nat (c - w) + snd o)%nat)
      (list_prod (seq 0 (Z.to_nat (2 * w + 1))) (seq 0 (Z.to_nat (2 * w + 1)))).
Proof.
  unfold inside. rewrite !andb_true_iff.
  intros [[[[Hw Hr0] Hr1] Hc0] Hc1].
  apply Z.leb_le in Hw, Hr0, Hc0. apply Z.ltb_lt in Hr1, Hc1.
  unfold centred, window; cbn [pdata].
  rewrite (py_slice_inside (r - w) (r + w + 1)) by lia.
  rewrite (py_slice_inside (c - w) (c + w + 1)) by lia.
  replace (r + w + 1 - (r - w))%Z with (2 * w + 1)%Z by ring.
  replace (c + w + 1 - (c - w))%Z with (2 * w + 1)%Z by ring.
  rewrite (seq_add (Z.to_nat (r - w))), (seq_add (Z.to_nat (c - w))).
  apply (flat_map_offsets (px img)).
Qed.

Lemma bcast_col_map {A : Type} (f : Q -> Q -> Q) (F G : A -> Q) (l : list A) :
  bcast_col f (map F l) (map G l) = Ok (map (fun o => f (F o) (G o)) l).
Proof.
  unfold bcast_col. rewrite !length_map, Nat.eqb_refl.
  rewrite combine_map_map, map_map. reflexivity.
Qed.

(** The loop over [range(num_iters)] for a body that returns wherever the
    written-out step is defined. *)
Lemma for_state_iterate (f : Q * Q -> result (Q * Q))
  (step : Q * Q -> option (Q * Q)) :
  (forall v v', step v = Some v' -> f v = Ok v') ->
  forall (l : list nat) (v v' : Q * Q),
    iterate (length l) step v = Some v' ->
    for_state (fun u _ => f u) v l = Ok v'.
Proof.
  intros H; induction l as [|k l IH]; intros v v'; cbn [length iterate for_state].
  - intros [= <-]; reflexivity.
  - destruct (step v) as [v1|] eqn:E; [|discriminate].
    rewrite (H v v1 E); cbn [bind]. apply IH.
Qed.

(** The loop body of the source on one keypoint computes what the
    written-out refiner does. *)
Lemma iterative_lucas_kanade_at_explicit (img1 img2 : image) (window_size : Z)
  (K : nat) (row : (Q * Q) * (Q * Q)) (flow : Q * Q) :
  refiner_explicit img1 img2 window_size K (fst row) (snd row) = Some flow ->
  iterative_lucas_kanade_at img1 img2
    {| shape0 := shape0 img1; shape1 := shape1 img1; px := d_dy img1 |}
    {| shape0 := shape0 img1; shape1 := shape1 img1; px := d_dx img1 |}
    (window_size / 2) K row
  = Ok flow.
Proof.
  destruct row as [[y x] [gy gx]].
  unfold refiner_explicit, iterative_lucas_kanade_at. cbn [fst snd].
  set (w := (window_size / 2)%Z). set (n := Z.to_nat (2 * w + 1)).
  set (offs := list_prod (seq 0 n) (seq 0 n)).
  destruct (inside img1 (py_round y) (py_round x) w) eqn:Hin; cbn [negb];
    [|discriminate].
  set (Iy := {| shape0 := shape0 img1; shape1 := shape1 img1; px := d_dy img1 |}).
  set (Ix := {| shape0 := shape0 img1; shape1 := shape1 img1; px := d_dx img1 |}).
  rewrite (centred_offsets img1 _ _ _ Hin).
  rewrite (centred_offsets Ix _ _ _ Hin), (centred_offsets Iy _ _ _ Hin).
  fold n; fold offs. cbn [px Ix Iy].
  unfold G_matrix. rewrite combine_map_map, !map_map. cbn [fst snd].
  unfold np_linalg_inv, det2, window_sum, np_sum. fold offs.
  match goal with
  | |- (if Qeq_bool ?d 0 then _ else _) = _ -> _ => destruct (Qeq_bool d 0)
  end; [discriminate|]. cbn [bind].
  match goal with
  | |- match iterate K ?st _ with _ => _ end = _ -> _ => set (step := st)
  end.
  destruct (iterate K step (0, 0)) as [[vx vy]|] eqn:Hit; [|discriminate].
  cbn [fst snd]. intros [= <-].
  match goal with
  | |- bind (for_state (fun v _ => ?f v) _ _) _ = _ =>
      rewrite (for_state_iterate f step) with (v' := (vx, vy))
  end; [reflexivity | | rewrite length_seq; exact Hit].
  intros [ux uy] v'. unfold step, ilk_iteration; cbn [fst snd].
  destruct (inside img2 _ _ w) eqn:Hin2; cbn [negb]; [|discriminate].
  intros [= <-].
  rewrite (centred_offsets img2 _ _ _ Hin2). fold n; fold offs.
  rewrite (bcast_col_map Qminus); cbn [bind].
  rewrite !(bcast_col_map Qmult); cbn [bind].
  unfold mat2_vec, np_sum, window_sum; cbn [fst snd]. fold offs. reflexivity.
Qed.

(** C8.  [iterative_lucas_kanade] is the refiner of section 4.3, written out
    pixel by pixel in [refiner_explicit].  For an odd window size, a
    reference frame with two rows and two columns at least, and a guess (the
    one given, or zeros) with one row per keypoint: when, for every keypoint,
    the window around the rounded keypoint is inside the reference frame, G
    is not singular and the window around each rounded(keypoint + g + v) is
    inside the target frame, the call returns and row [j] of its result is
    [(vy, vx)] after [K] updates v <- v + G^-1 b of v = (0, 0), with
    G = [[sum Ax^2, sum Ax Ay], [sum Ax Ay, sum Ay^2]] from the reference
    frame alone and b = (sum (A - B) Ax, sum (A - B) Ay). *)
Theorem iterative_lucas_kanade_refines_spec :
  forall (img1 img2 : image) (keypoints : list (Q * Q)) (window_size : Z)
         (K : nat) (g : option (list (Q * Q))) (flows : list (Q * Q)),
    (window_size mod 2 = 1)%Z ->
    (2 <= shape0 img1)%nat -> (2 <= shape1 img1)%nat ->
    length (match g with
            | Some g => g
            | None => map (fun _ => (0, 0)) keypoints
            end) = length keypoints ->
    Forall2 (fun row flow =>
               refiner_explicit img1 img2 window_size K (fst row) (snd row)
               = Some flow)
      (combine keypoints
         (match g with
          | Some g => g
          | None => map (fun _ => (0, 0)) keypoints
          end))
      flows ->
    iterative_lucas_kanade img1 img2 keypoints window_size K g = Ok flows.
Proof.
  intros img1 img2 kps ws K g flows Hodd H0 H1 Lg Hall.
  unfold iterative_lucas_kanade.
  apply Z.eqb_eq in Hodd. rewrite Hodd; cbn [py_assert bind].
  unfold np_gradient.
  destruct (Nat.ltb_spec (shape0 img1) 2); [lia|].
  destruct (Nat.ltb_spec (shape1 img1) 2); [lia|]. cbn [orb bind].
  change (np_zeros kps) with (map (fun _ : Q * Q => (0, 0)) kps).
  set (guess := match g with
                | Some g0 => g0
                | None => map (fun _ : Q * Q => (0, 0)) kps
                end) in *.
  unfold np_hstack. rewrite <- Lg, Nat.eqb_refl; cbn [bind].
  clear Lg.
  change (mapr (iterative_lucas_kanade_at img1 img2
                  {| shape0 := shape0 img1; shape1 := shape1 img1;
                     px := d_dy img1 |}
                  {| shape0 := shape0 img1; shape1 := shape1 img1;
                     px := d_dx img1 |} (ws / 2) K) (combine kps guess)
          = Ok flows).
  induction Hall as [|row flow rows flows' Hrow Hrest IH]; [reflexivity|].
  cbn [mapr].
  rewrite (iterative_lucas_kanade_at_explicit img1 img2 ws K row flow Hrow).
  cbn [bind]. rewrite IH. reflexivity.
Qed.

Lemma iterative_lucas_kanade_refines_spec_witness :
  exists flow : Q * Q,
    refiner_explicit shift_ref shift_next 3 2 (2, 2) (0, 0) = Some flow
    /\ fst flow == 0 /\ snd flow == 1
    /\ iterative_lucas_kanade shift_ref shift_next [(2, 2)] 3 2 None = Ok [flow].
Proof.
  assert (E : exists flow : Q * Q,
             refiner_explicit shift_ref shift_next 3 2 (2, 2) (0, 0) = Some flow
             /\ fst flow == 0 /\ snd flow == 1).
  { eexists; split; [vm_compute; reflexivity | split; reflexivity]. }
  destruct E as (flow & E & Hy & Hx). exists flow.
  split; [exact E|]. split; [exact Hy|]. split; [exact Hx|].
  apply (iterative_lucas_kanade_refines_spec shift_ref shift_next [(2, 2)] 3 2
           None [flow]);
    [reflexivity | cbn; lia | cbn; lia | reflexivity
    | constructor; [exact E | constructor]].
Defined.

(** ** The inverse of a 2x2 matrix *)

(** When [np_linalg_inv] returns, it returns the inverse: [m (m^-1 v) = v]. *)
Lemma np_linalg_inv_correct (m mi : mat2) (v : Q * Q) :
  np_linalg_inv m = Ok mi ->
  fst (mat2_vec m (mat2_vec mi v)) == fst v
  /\ snd (mat2_vec m (mat2_vec mi v)) == snd v.
Proof.
  destruct m as [[a b] [c d]], v as [v0 v1]. unfold np_linalg_inv.
  destruct (Qeq_bool (det2 (a, b, (c, d))) 0) eqn:E; [discriminate|].
  intros [= <-]. apply Qeq_bool_neq in E. unfold det2 in *.
  cbn [mat2_vec fst snd]. split; field; exact E.
Qed.

(** ** Singular G *)

Lemma in_combine_left {A B : Type} (a : list A) (b : list B) (x : A) :
  length a = length b -> In x a -> exists y, In (x, y) (combine a b).
Proof.
  revert b; induction a as [|a0 a IH]; intros [|b0 b] L Hx; cbn in *;
    try contradiction; try discriminate.
  destruct Hx as [<-|Hx]; [exists b0; left; reflexivity|].
  destruct (IH b ltac:(lia) Hx) as [y Hy]. exists y; right; exact Hy.
Qed.

Lemma np_hstack_Ok (a b : list (Q * Q)) (rows : list ((Q * Q) * (Q * Q))) :
  np_hstack a b = Ok rows -> length a = length b /\ rows = combine a b.
Proof.
  unfold np_hstack. destruct (Nat.eqb_spec (length a) (length b)); [|discriminate].
  intros [= <-]; split; [assumption | reflexivity].
Qed.

Lemma np_linalg_inv_singular (m : mat2) :
  det2 m == 0 -> np_linalg_inv m = Err LinAlgError.
Proof.
  intros D. destruct m as [[a b] [c d]]. unfold np_linalg_inv.
  apply Qeq_bool_iff in D. rewrite D. reflexivity.
Qed.

Lemma ilk_at_singular (img1 img2 Iy Ix : image) (w : Z) (K : nat)
  (kp g : Q * Q) :
  det2 (G_at Iy Ix w kp) == 0 ->
  iterative_lucas_kanade_at img1 img2 Iy Ix w K (kp, g) = Err LinAlgError.
Proof.
  intros D. destruct kp as [y x], g as [gy gx].
  unfold iterative_lucas_kanade_at. unfold G_at in D; cbn [fst snd] in D.
  rewrite (np_linalg_inv_singular _ D). reflexivity.
Qed.

(** C4, as the code has it.  Nothing catches the error of [np.linalg.inv]:
    when some keypoint of the call has a window without texture, so that its
    G is the zero matrix, the inversion raises and the call fails as a
    whole, returning no flow vector for any keypoint. *)
Theorem singular_G_aborts_call :
  forall (img1 img2 Iy Ix : image) (keypoints : list (Q * Q)) (window_size : Z)
         (num_iters : nat) (g : option (list (Q * Q))) (kp : Q * Q),
    np_gradient img1 = Ok (Iy, Ix) ->
    In kp keypoints ->
    mat2_eq (G_at Iy Ix (window_size / 2) kp) ((0, 0), (0, 0)) ->
    exists e, iterative_lucas_kanade img1 img2 keypoints window_size num_iters g
              = Err e.
Proof.
  intros img1 img2 Iy Ix kps ws K g kp HG Hin Hzero.
  assert (D : det2 (G_at Iy Ix (ws / 2) kp) == 0).
  { destruct (G_at Iy Ix (ws / 2) kp) as [[a b] [c d]].
    unfold mat2_eq in Hzero; cbn [fst snd] in Hzero.
    destruct Hzero as (Ha & Hb & Hc & Hd). unfold det2. rewrite Ha, Hb. ring. }
  unfold iterative_lucas_kanade.
  destruct (py_assert _); cbn [bind]; [|eexists; reflexivity].
  rewrite HG; cbn [bind].
  destruct (np_hstack _ _) as [rows|e] eqn:Hs; cbn [bind]; [|eexists; reflexivity].
  apply np_hstack_Ok in Hs; destruct Hs as [L ->].
  destruct (in_combine_left _ _ kp L Hin) as [gi Hrow].
  destruct (mapr _ _) as [out|e] eqn:Hm; [|eexists; reflexivity].
  destruct (mapr_Ok_all _ _ _ Hm _ Hrow) as [b Hb].
  rewrite (ilk_at_singular _ _ _ _ _ _ _ _ D) in Hb. discriminate.
Qed.

(** A call with a textured keypoint and a flat one: the flat keypoint's G is
    the zero matrix and the call as a whole raises, although the textured
    keypoint alone gets a flow vector. *)
Lemma singular_G_is_not_per_keypoint :
  iterative_lucas_kanade half_flat half_flat [(2, 2); (2, 7)] 3 2 None
  = Err LinAlgError
  /\ exists f, iterative_lucas_kanade half_flat half_flat [(2, 2)] 3 2 None
               = Ok [f].
Proof. split; [vm_compute; reflexivity | eexists; vm_compute; reflexivity]. Qed.

Lemma singular_G_aborts_call_witness :
  exists e, iterative_lucas_kanade half_flat half_flat [(2, 2); (2, 7)] 3 2 None
            = Err e.
Proof.
  destruct (np_gradient half_flat) as [[Iy Ix]|e] eqn:HG; [|discriminate HG].
  apply (singular_G_aborts_call half_flat half_flat Iy Ix
           [(2, 2); (2, 7)] 3 2 None (2, 7) HG).
  - right; left; reflexivity.
  - injection HG as <- <-. unfold mat2_eq. vm_compute. repeat split; reflexivity.
Defined.

(** ** The pyramid coordinator *)

Lemma bind_Ok_r {A : Type} (c : result A) : (x <- c ;; Ok x) = c.
Proof. destruct c; reflexivity. Qed.

Lemma levels_down_S (n : nat) : levels_down (S n) = S n :: levels_down n.
Proof.
  unfold levels_down. rewrite (seq_S (S n) 0), rev_app_distr. reflexivity.
Qed.

Section PyramidFacts.

Variable pyramid_layers : image -> nat -> Q -> list image.
Variables pyramid1 pyramid2 : list image.
Variable keypoints : list (Q * Q).
Variable window_size : Z.
Variable num_iters : nat.
Variable scale : Q.

(** The loop over levels followed by the final [d = g + d], started at
    any level and in any state. *)
Lemma pyramid_loop_coarse_to_fine :
  forall (n : nat) (g : list (Q * Q)) (od : option (list (Q * Q))),
    (st <- for_state
             (pyramid_level pyramid1 pyramid2 keypoints window_size num_iters scale)
             (g, od) (levels_down n) ;;
     match snd st with
     | None => Err UnboundLocalError
     | Some d => np_add (fst st) d
     end)
    = coarse_to_fine (refine_on pyramid1 pyramid2 window_size num_iters)
        keypoints scale n g.
Proof.
  induction n as [|n IH]; intros g od.
  - change (levels_down 0) with [0%nat].
    cbn [for_state coarse_to_fine]. unfold pyramid_level, refine_on; cbn [fst].
    destruct (py_index pyramid1 0) as [i1|e]; cbn [bind]; [|reflexivity].
    destruct (py_index pyramid2 0) as [i2|e]; cbn [bind]; [|reflexivity].
    destruct (iterative_lucas_kanade _ _ _ _ _ _) as [d|e]; cbn; [|reflexivity].
    symmetry; apply bind_Ok_r.
  - rewrite levels_down_S. cbn [for_state coarse_to_fine].
    unfold pyramid_level at 1, refine_on at 1; cbn [fst].
    destruct (py_index pyramid1 (S n)) as [i1|e]; cbn [bind]; [|reflexivity].
    destruct (py_index pyramid2 (S n)) as [i2|e]; cbn [bind]; [|reflexivity].
    destruct (iterative_lucas_kanade _ _ _ _ _ _) as [d|e]; cbn [bind]; [|reflexivity].
    change (negb (S n =? 0)%nat) with true; cbn iota.
    destruct (np_add g d) as [gd|e]; cbn [bind]; [|reflexivity].
    apply IH.
Qed.

End PyramidFacts.

(** The coordinator as the recursion [coarse_to_fine] over the refiner run
    on the pyramids' levels. *)
Lemma pyramid_lucas_kanade_coarse_to_fine :
  forall (pyramid_layers : image -> nat -> Q -> list image)
         (img1 img2 : image) (keypoints : list (Q * Q)) (window_size : Z)
         (num_iters level : nat) (scale : Q),
    pyramid_lucas_kanade pyramid_layers img1 img2 keypoints window_size
      num_iters level scale
    = (pyramid1 <- pyramid_gaussian pyramid_layers img1 level scale ;;
       pyramid2 <- pyramid_gaussian pyramid_layers img2 level scale ;;
       coarse_to_fine (refine_on pyramid1 pyramid2 window_size num_iters)
         keypoints scale level (np_zeros keypoints)).
Proof.
  intros. unfold pyramid_lucas_kanade.
  destruct (pyramid_gaussian pyramid_layers img1 level scale) as [p1|e];
    cbn [bind]; [|reflexivity].
  destruct (pyramid_gaussian pyramid_layers img2 level scale) as [p2|e];
    cbn [bind]; [|reflexivity].
  rewrite <- (pyramid_loop_coarse_to_fine p1 p2 keypoints window_size num_iters
                scale level (np_zeros keypoints) None).
  destruct (for_state _ _ _) as [[g d]|e]; reflexivity.
Qed.

(** *** Level 0 *)

Lemma Qdiv_1_r_eq (q : Q) : q / 1 = q.
Proof.
  destruct q as [n d]. unfold Qdiv, Qmult; cbn.
  rewrite Z.mul_1_r, Pos.mul_1_r. reflexivity.
Qed.

Lemma Qplus_0_l_eq (q : Q) : 0 + q = q.
Proof.
  destruct q as [n d]. unfold Qplus; cbn.
  rewrite Z.mul_1_r. reflexivity.
Qed.

Lemma np_div_scalar_1 (a : list (Q * Q)) : np_div_scalar a 1 = a.
Proof.
  unfold np_div_scalar. induction a as [|[y x] a IH]; [reflexivity|].
  cbn [map fst snd]. rewrite IH, !Qdiv_1_r_eq. reflexivity.
Qed.

Lemma np_zeros_length (a : list (Q * Q)) : length (np_zeros a) = length a.
Proof. apply length_map. Qed.

Lemma np_add_zeros (a d : list (Q * Q)) :
  length d = length a -> np_add (np_zeros a) d = Ok d.
Proof.
  intros L. unfold np_add. rewrite np_zeros_length, <- L, Nat.eqb_refl.
  f_equal. revert d L; induction a as [|k a IH]; intros [|[dy dx] d] L;
    try discriminate; [reflexivity|].
  cbn [np_zeros map combine fst snd]. unfold vadd at 1; cbn [fst snd].
  rewrite !Qplus_0_l_eq. f_equal. apply IH. injection L as L; exact L.
Qed.

Lemma iterative_lucas_kanade_length (img1 img2 : image)
  (keypoints : list (Q * Q)) (window_size : Z) (num_iters : nat)
  (g : option (list (Q * Q))) (d : list (Q * Q)) :
  iterative_lucas_kanade img1 img2 keypoints window_size num_iters g = Ok d ->
  length d = length keypoints.
Proof.
  unfold iterative_lucas_kanade.
  destruct (py_assert _); cbn [bind]; [|discriminate].
  destruct (np_gradient img1) as [[Iy Ix]|e]; cbn [bind]; [|discriminate].
  destruct (np_hstack _ _) as [rows|e] eqn:Hs; cbn [bind]; [|discriminate].
  apply np_hstack_Ok in Hs; destruct Hs as [L ->].
  intros Hm. apply mapr_length in Hm. rewrite Hm, length_combine, <- L.
  apply Nat.min_id.
Qed.

(** The array operations of the coordinator, row by row, for a guess that
    has one row per keypoint. *)
Lemma coarse_to_fine_rows (pyramid1 pyramid2 : list image) (window_size : Z)
  (num_iters : nat) (keypoints : list (Q * Q)) (s : Q) :
  forall (l : nat) (g : list (Q * Q)),
    length g = length keypoints ->
    coarse_to_fine (refine_on pyramid1 pyramid2 window_size num_iters)
      keypoints s l g
    = coarse_to_fine_flow pyramid1 pyramid2 window_size num_iters
        keypoints s l g.
Proof.
  induction l as [|l IH]; intros g Lg; cbn [coarse_to_fine coarse_to_fine_flow];
    unfold refine_on at 1, py_index, np_div_scalar.
  - destruct (nth_error pyramid1 0) as [i1|]; cbn [bind]; [|reflexivity].
    destruct (nth_error pyramid2 0) as [i2|]; cbn [bind]; [|reflexivity].
    destruct (iterative_lucas_kanade _ _ _ _ _ _) as [d|e] eqn:Hd; cbn [bind];
      [|reflexivity].
    apply iterative_lucas_kanade_length in Hd. rewrite length_map in Hd.
    unfold np_add. rewrite Lg, <- Hd, Nat.eqb_refl. reflexivity.
  - destruct (nth_error pyramid1 (S l)) as [i1|]; cbn [bind]; [|reflexivity].
    destruct (nth_error pyramid2 (S l)) as [i2|]; cbn [bind]; [|reflexivity].
    destruct (iterative_lucas_kanade _ _ _ _ _ _) as [d|e] eqn:Hd; cbn [bind];
      [|reflexivity].
    apply iterative_lucas_kanade_length in Hd. rewrite length_map in Hd.
    unfold np_add. rewrite Lg, <- Hd, Nat.eqb_refl; cbn [bind].
    apply IH. unfold np_scale. rewrite !length_map, length_combine, Lg, Hd.
    apply Nat.min_id.
Qed.

(** C7.  [pyramid_lucas_kanade] is the coordinator of section 4.4: starting
    from the guess g = 0, one row (0, 0) per keypoint, it visits the levels
    from [level] down to 0; at level l it divides both coordinates of every
    keypoint by scale^l, runs the iterative refiner on layer l of the two
    pyramids with guess g to get d, continues with g <- scale (g + d), row
    by row and coordinate by coordinate, when l > 0, and returns g + d at
    level 0. *)
Theorem pyramid_lucas_kanade_refines_spec :
  forall (pyramid_layers : image -> nat -> Q -> list image)
         (img1 img2 : image) (keypoints : list (Q * Q)) (window_size : Z)
         (num_iters level : nat) (scale : Q),
    pyramid_lucas_kanade pyramid_layers img1 img2 keypoints window_size
      num_iters level scale
    = (pyramid1 <- pyramid_gaussian pyramid_layers img1 level scale ;;
       pyramid2 <- pyramid_gaussian pyramid_layers img2 level scale ;;
       coarse_to_fine_flow pyramid1 pyramid2 window_size num_iters
         keypoints scale level (map (fun _ => (0, 0)) keypoints)).
Proof.
  intros. rewrite pyramid_lucas_kanade_coarse_to_fine.
  destruct (pyramid_gaussian pyramid_layers img1 level scale) as [p1|e];
    cbn [bind]; [|reflexivity].
  destruct (pyramid_gaussian pyramid_layers img2 level scale) as [p2|e];
    cbn [bind]; [|reflexivity].
  apply coarse_to_fine_rows. apply length_map.
Qed.

(** *** Level 0 on arrays with their shape *)

Lemma nd_div_scalar_1 (a : ndarray) : nd_div_scalar a 1 = a.
Proof. destruct a as [rows|]; cbn; [rewrite np_div_scalar_1|]; reflexivity. Qed.

(** What the refiner returns with the default guess: [np.array([])] for an
    array without rows, whatever its shape, and one row per keypoint
    otherwise. *)
Lemma iterative_lucas_kanade_nd_shape (img1 img2 : image) (keypoints : ndarray)
  (window_size : Z) (num_iters : nat) (d : ndarray) :
  iterative_lucas_kanade_nd img1 img2 keypoints window_size num_iters None = Ok d ->
  match keypoints with
  | Arr1_empty | Arr2 [] => d = Arr1_empty
  | Arr2 (k :: rows) => exists flows, d = Arr2 flows
                                      /\ length flows = length (k :: rows)
  end.
Proof.
  unfold iterative_lucas_kanade_nd.
  destruct (py_assert _); cbn [bind]; [|discriminate].
  destruct (np_gradient img1) as [[Iy Ix]|e]; cbn [bind]; [|discriminate].
  destruct keypoints as [[|k rows]|]; cbn [nd_zeros nd_hstack].
  - cbn. intros [= <-]; reflexivity.
  - destruct (np_hstack _ _) as [rs|e] eqn:Hs; cbn [bind]; [|discriminate].
    apply np_hstack_Ok in Hs; destruct Hs as [L ->].
    destruct (mapr _ _) as [flows|e] eqn:Hm; cbn [bind]; [|discriminate].
    intros [= <-]. apply mapr_length in Hm.
    rewrite length_combine, <- L, Nat.min_id in Hm.
    destruct flows as [|f flows]; [discriminate Hm|].
    exists (f :: flows); split; [reflexivity | exact Hm].
  - cbn. intros [= <-]; reflexivity.
Qed.

(** With [level = 0] the coordinator returns exactly what the iterative
    refiner returns on the original frames with a zero initial guess and the
    same window size and iteration count (a raise of the refiner included),
    for every keypoint array but the empty array of shape (0, 2); the
    pyramid's layer 0 is the frame itself and the scale factor one that the
    pyramid builder accepts. *)
Theorem pyramid_level0_is_iterative_nd :
  forall (pyramid_layers : image -> nat -> Q -> list image)
         (img1 img2 : image) (keypoints : ndarray) (window_size : Z)
         (num_iters : nat) (scale : Q),
    keypoints <> Arr2 [] ->
    1 < scale ->
    hd_error (pyramid_layers img1 0%nat scale) = Some img1 ->
    hd_error (pyramid_layers img2 0%nat scale) = Some img2 ->
    pyramid_lucas_kanade_nd pyramid_layers img1 img2 keypoints window_size
      num_iters 0 scale
    = iterative_lucas_kanade_nd img1 img2 keypoints window_size num_iters None.
Proof.
  intros layers img1 img2 kps ws K scale Hne Hs H1 H2.
  unfold pyramid_lucas_kanade_nd, pyramid_gaussian.
  assert (Hle : Qle_bool scale 1 = false).
  { destruct (Qle_bool scale 1) eqn:E; [|reflexivity].
    apply Qle_bool_iff in E. exfalso; exact (Qlt_not_le _ _ Hs E). }
  rewrite Hle; cbn [bind].
  change (levels_down 0) with [0%nat]. cbn [for_state].
  unfold pyramid_level_nd, py_index; cbn [fst].
  destruct (layers img1 0%nat scale) as [|i1 p1]; [discriminate H1|].
  destruct (layers img2 0%nat scale) as [|i2 p2]; [discriminate H2|].
  injection H1 as ->. injection H2 as ->. cbn [nth_error bind].
  change (scale ^ Z.of_nat 0) with 1. rewrite nd_div_scalar_1.
  change (iterative_lucas_kanade_nd img1 img2 kps ws K (Some (nd_zeros kps)))
    with (iterative_lucas_kanade_nd img1 img2 kps ws K None).
  destruct (iterative_lucas_kanade_nd img1 img2 kps ws K None) as [d|e] eqn:Hd;
    cbn; [|reflexivity].
  apply iterative_lucas_kanade_nd_shape in Hd.
  destruct kps as [[|k rows]|].
  - exfalso; apply Hne; reflexivity.
  - destruct Hd as (flows & -> & L). cbn [nd_zeros nd_add].
    rewrite (np_add_zeros (k :: rows) flows L). reflexivity.
  - subst d. reflexivity.
Qed.

Lemma pyramid_level0_is_iterative_nd_witness :
  pyramid_lucas_kanade_nd (fun img _ _ => [img]) shift_ref shift_next
    (Arr2 [(2, 2)]) 3 3 0 2
  = iterative_lucas_kanade_nd shift_ref shift_next (Arr2 [(2, 2)]) 3 3 None.
Proof.
  apply (pyramid_level0_is_iterative_nd (fun img _ _ => [img]));
    [discriminate | reflexivity | reflexivity | reflexivity].
Defined.

(** C6, on the empty keypoint array of shape (0, 2).  The refiner called
    directly returns [np.array([])], of shape (0,) and not of the shape
    (N, 2) of its docstring; the coordinator at [level = 0] gets the same
    array for [d] and raises at its last line, [d = g + d], where [g] has
    shape (0, 2).  Window size odd, frames that [np.gradient] accepts. *)
Theorem pyramid_level0_empty_keypoints_raise :
  forall (pyramid_layers : image -> nat -> Q -> list image)
         (img1 img2 Iy Ix : image) (window_size : Z) (num_iters : nat)
         (scale : Q),
    1 < scale ->
    hd_error (pyramid_layers img1 0%nat scale) = Some img1 ->
    hd_error (pyramid_layers img2 0%nat scale) = Some img2 ->
    (window_size mod 2 = 1)%Z ->
    np_gradient img1 = Ok (Iy, Ix) ->
    iterative_lucas_kanade_nd img1 img2 (Arr2 []) window_size num_iters None
    = Ok Arr1_empty
    /\ pyramid_lucas_kanade_nd pyramid_layers img1 img2 (Arr2 []) window_size
         num_iters 0 scale
       = Err ValueError.
Proof.
  intros layers img1 img2 Iy Ix ws K scale Hs H1 H2 Hodd Hg.
  assert (Hd : forall g, iterative_lucas_kanade_nd img1 img2 (Arr2 []) ws K
                           (Some (Arr2 g)) =
                         match g with [] => Ok Arr1_empty | _ => Err ValueError end).
  { intros g. unfold iterative_lucas_kanade_nd.
    apply Z.eqb_eq in Hodd. rewrite Hodd; cbn [py_assert bind].
    rewrite Hg; cbn [bind]. destruct g; reflexivity. }
  split; [exact (Hd [])|].
  unfold pyramid_lucas_kanade_nd, pyramid_gaussian.
  assert (Hle : Qle_bool scale 1 = false).
  { destruct (Qle_bool scale 1) eqn:E; [|reflexivity].
    apply Qle_bool_iff in E. exfalso; exact (Qlt_not_le _ _ Hs E). }
  rewrite Hle; cbn [bind].
  change (levels_down 0) with [0%nat]. cbn [for_state].
  unfold pyramid_level_nd, py_index; cbn [fst].
  destruct (layers img1 0%nat scale) as [|i1 p1]; [discriminate H1|].
  destruct (layers img2 0%nat scale) as [|i2 p2]; [discriminate H2|].
  injection H1 as ->. injection H2 as ->. cbn [nth_error bind].
  cbn [nd_zeros nd_div_scalar np_zeros np_div_scalar map].
  rewrite (Hd []). reflexivity.
Qed.

Lemma pyramid_level0_empty_keypoints_raise_witness :
  iterative_lucas_kanade_nd shift_ref shift_next (Arr2 []) 3 3 None
  = Ok Arr1_empty
  /\ pyramid_lucas_kanade_nd (fun img _ _ => [img]) shift_ref shift_next
       (Arr2 []) 3 3 0 2
     = Err ValueError.
Proof.
  eapply (pyramid_level0_empty_keypoints_raise (fun img _ _ => [img]));
    reflexivity.
Defined.

(** ** The tracker's loops *)

Lemma subseq_length {A : Type} (k l : list A) :
  subseq k l -> (length k <= length l)%nat.
Proof. induction 1; cbn [length]; lia. Qed.

Lemma subseq_In {A : Type} (k l : list A) (x : A) :
  subseq k l -> In x k -> In x l.
Proof.
  induction 1 as [|a k l _ IH|a k l _ IH]; cbn [In]; [tauto| |].
  - intros Hx; right; exact (IH Hx).
  - intros [->|Hx]; [left; reflexivity | right; exact (IH Hx)].
Qed.

Lemma filter_mapr_subseq {A B : Type} (f : A -> result (option B)) (g : A -> B) :
  (forall a b, f a = Ok (Some b) -> b = g a) ->
  forall (l : list A) (out : list B),
    filter_mapr f l = Ok out ->
    exists kept, subseq kept l /\ out = map g kept.
Proof.
  intros Hg; induction l as [|a l IH]; intros out; cbn [filter_mapr].
  - intros [= <-]. exists []; split; [constructor | reflexivity].
  - destruct (f a) as [o|e] eqn:Ea; cbn [bind]; [|discriminate].
    destruct (filter_mapr f l) as [bs|e]; cbn [bind]; [|discriminate].
    destruct (IH bs eq_refl) as (kept & Hk & ->).
    destruct o as [b|]; intros [= <-].
    + exists (a :: kept); split; [constructor; exact Hk|].
      cbn [map]. rewrite (Hg a b Ea). reflexivity.
    + exists kept; split; [constructor; exact Hk | reflexivity].
Qed.

Lemma filter_mapr_keeps {A B : Type} (f : A -> result (option B)) :
  forall (l : list A) (out : list B),
    filter_mapr f l = Ok out ->
    forall a, In a l ->
      exists o, f a = Ok o /\ forall b, o = Some b -> In b out.
Proof.
  induction l as [|a l IH]; intros out; cbn [filter_mapr]; [intros _ ? []|].
  destruct (f a) as [o|e] eqn:Ea; cbn [bind]; [|discriminate].
  destruct (filter_mapr f l) as [bs|e]; cbn [bind]; [|discriminate].
  intros [= <-] x [<-|Hx].
  - exists o; split; [exact Ea|]. intros b ->. left; reflexivity.
  - destruct (IH bs eq_refl x Hx) as (o' & Ho & Hin). exists o'; split; [exact Ho|].
    intros b Hb. destruct o; [right|]; exact (Hin b Hb).
Qed.

Lemma chain_from_nth {A : Type} (R : nat -> A -> A -> Prop) :
  forall (l : list A) (s : nat) (a : A) (k : nat) (prev next : A),
    chain_from R s a l ->
    nth_error (a :: l) k = Some prev ->
    nth_error (a :: l) (S k) = Some next ->
    R (s + k)%nat prev next.
Proof.
  induction l as [|b l IH]; intros s a k prev next C Hp Hn.
  - destruct k; cbn in Hn; discriminate.
  - destruct C as [Rab C]. destruct k as [|k].
    + cbn in Hp, Hn. injection Hp as <-. injection Hn as <-.
      rewrite Nat.add_0_r. exact Rab.
    + rewrite <- Nat.add_succ_comm. exact (IH (S s) b k prev next C Hp Hn).
Qed.

(** The loop body's list: the values appended are those of the elements
    that are kept, in the order of the elements. *)
Lemma filter_mapr_filter {A B : Type} (f : A -> result (option B)) (g : A -> B) :
  (forall a b, f a = Ok (Some b) -> b = g a) ->
  forall (l : list A) (out : list B),
    filter_mapr f l = Ok out ->
    out = map g (filter (fun a => match f a with
                                  | Ok (Some _) => true
                                  | _ => false
                                  end) l).
Proof.
  intros Hg; induction l as [|a l IH]; intros out; cbn [filter_mapr filter].
  - intros [= <-]; reflexivity.
  - destruct (f a) as [o|e] eqn:Ea; cbn [bind]; [|discriminate].
    destruct (filter_mapr f l) as [bs|e]; cbn [bind]; [|discriminate].
    intros [= <-]. rewrite (IH bs eq_refl).
    destruct o as [b|]; [|reflexivity].
    cbn [map]. rewrite (Hg a b Ea). reflexivity.
Qed.

(** ** One frame transition *)

(** Row [j] of [a + b] is row [j] of [a] plus a row of [b]: row [j] of [b]
    when the two arrays have as many rows. *)
Lemma np_add_nth (a b nxt : list (Q * Q)) (j : nat) (c n : Q * Q) :
  np_add a b = Ok nxt ->
  length nxt = length a ->
  nth_error a j = Some c ->
  nth_error nxt j = Some n ->
  exists f, In f b
            /\ n = (fst c + fst f, snd c + snd f)
            /\ (length b = length a -> nth_error b j = Some f).
Proof.
  unfold np_add. destruct (Nat.eqb_spec (length a) (length b)) as [L|L].
  - intros [= <-] _. clear L. revert b j.
    induction a as [|x a IH]; intros b j Hc Hn; [destruct j; discriminate|].
    destruct b as [|y b]; [destruct j; discriminate|].
    destruct j as [|j]; cbn in Hc, Hn.
    + injection Hc as <-. injection Hn as <-.
      exists y. split; [left; reflexivity|]. split; reflexivity.
    + destruct (IH b j Hc Hn) as (f & Hf & E & Hj).
      exists f. split; [right; exact Hf|]. split; [exact E|].
      intros Hl. cbn. apply Hj. cbn in Hl. lia.
  - destruct a as [|x [|x' a']].
    + intros _ _ Hc. destruct j; discriminate.
    + intros [= <-] Hl. exfalso; apply L. rewrite length_map in Hl.
      symmetry; exact Hl.
    + destruct b as [|y [|y' b']]; try discriminate.
      intros [= <-] _ Hc Hn. exists y. split; [left; reflexivity|].
      split.
      * pose proof (map_nth_error (fun x0 => vadd x0 y) j _ Hc) as Hm.
        cbn [map] in Hm, Hn. rewrite Hm in Hn.
        injection Hn as <-. reflexivity.
      * intros Hl. exfalso; apply L. symmetry; exact Hl.
Qed.

Lemma nth_error_combine_inv {A B : Type} :
  forall (l : list A) (m : list B) (j : nat) (a : A) (b : B),
    nth_error (combine l m) j = Some (a, b) ->
    nth_error l j = Some a /\ nth_error m j = Some b.
Proof.
  induction l as [|x l IH]; intros m j a b H; [destruct j; discriminate|].
  destruct m as [|y m]; [destruct j; discriminate|].
  destruct j as [|j]; cbn in *.
  - injection H as <- <-. split; reflexivity.
  - exact (IH m j a b H).
Qed.

Section TrackerFacts.

Variable np_sqrt : Q -> Q.
Variable optflow_fn : flow_fn.
Variable error_thresh : Q.
Variable exclude_border : Z.

Lemma keypoint_fate_Some (I J : image) (w : Z) (row : (Q * Q) * (Q * Q))
  (b : Q * Q) :
  keypoint_fate np_sqrt I J error_thresh exclude_border w row = Ok (Some b) ->
  b = rounded_next row.
Proof.
  destruct row as [[yi xi] [yj xj]]. unfold keypoint_fate, rounded_next.
  destruct (outside_border _ _ _ _); [discriminate|].
  destruct (compute_error _ _ _) as [err|e]; cbn [bind]; [|discriminate].
  destruct (fgtb err error_thresh); [discriminate|].
  intros [= <-]. reflexivity.
Qed.

(** What one transition that returns has computed. *)
Lemma track_pair_Ok (w : Z) (I J : image) (kp_curr new : list (Q * Q)) :
  track_pair np_sqrt optflow_fn error_thresh exclude_border w I J kp_curr
  = Ok new ->
  exists flows kp_next : list (Q * Q),
    optflow_fn I J kp_curr = Ok flows
    /\ np_add kp_curr flows = Ok kp_next
    /\ length kp_next = length kp_curr
    /\ new = map rounded_next
               (filter (survives np_sqrt I J error_thresh exclude_border w)
                  (combine kp_curr kp_next)).
Proof.
  unfold track_pair.
  destruct (optflow_fn I J kp_curr) as [flows|e] eqn:Hf; cbn [bind]; [|discriminate].
  destruct (np_add kp_curr flows) as [nxt|e] eqn:Ha; cbn [bind]; [|discriminate].
  destruct (np_hstack kp_curr nxt) as [rows|e] eqn:Hs; cbn [bind]; [|discriminate].
  apply np_hstack_Ok in Hs; destruct Hs as [L ->].
  intros Hfm. exists flows, nxt.
  split; [reflexivity|]. split; [exact Ha|].
  split; [symmetry; exact L|].
  exact (filter_mapr_filter _ rounded_next (keypoint_fate_Some I J w) _ _ Hfm).
Qed.

Lemma track_loop_steps (frames : list image) (w : Z) :
  forall (len start : nat) (kp : list (Q * Q)) (trajs : list (list (Q * Q)))
         (st : list (Q * Q) * list (list (Q * Q))),
    for_state (track_frame np_sqrt frames optflow_fn error_thresh
                 exclude_border w) (kp, trajs) (seq start len) = Ok st ->
    exists news,
      snd st = trajs ++ news
      /\ chain_from (tracked_step np_sqrt frames optflow_fn error_thresh
                       exclude_border w) start kp news.
Proof.
  induction len as [|len IH]; intros start kp trajs st; cbn [seq for_state].
  - intros [= <-]. exists []; split; [symmetry; apply app_nil_r | exact I].
  - unfold track_frame at 1, py_index.
    destruct (nth_error frames start) as [I|] eqn:EI; cbn [bind]; [|discriminate].
    rewrite Nat.add_1_r.
    destruct (nth_error frames (S start)) as [J|] eqn:EJ; cbn [bind]; [|discriminate].
    destruct (track_pair _ _ _ _ _ _ _ _) as [kp1|e] eqn:Hp; cbn [bind];
      [|discriminate].
    intros Hrest. destruct (IH _ _ _ _ Hrest) as (news & E & C).
    exists (kp1 :: news); split.
    + rewrite E, <- app_assoc. reflexivity.
    + split; [|exact C].
      destruct (track_pair_Ok _ _ _ _ _ Hp) as (flows & nxt & Hf & Ha & L & En).
      exists I, J, flows, nxt. repeat split; assumption.
Qed.

(** The trajectory is the initial keypoint set followed by the results of
    transitions 0, 1, 2, ... *)
Lemma track_features_steps (frames : list image) (keypoints : list (Q * Q))
  (trajs : list (list (Q * Q))) :
  track_features np_sqrt frames keypoints error_thresh optflow_fn exclude_border
  = Ok trajs ->
  exists news,
    trajs = keypoints :: news
    /\ chain_from (tracked_step np_sqrt frames optflow_fn error_thresh
                     exclude_border 1) 0 keypoints news.
Proof.
  unfold track_features.
  destruct (for_state _ _ _) as [[kp' trajs']|e] eqn:Hl; cbn [bind];
    [|discriminate].
  intros [= <-]. destruct (track_loop_steps _ _ _ _ _ _ _ Hl) as (news & E & C).
  exists news; split; [exact E | exact C].
Qed.

End TrackerFacts.

(** C9.  In a trajectory returned by [track_features], entry [i + 1] is at
    most as long as entry [i] and lists its survivors in the order of entry
    [i]: with [flows] the result of the flow function on frames [i] and
    [i + 1] and [kp_next = trajs[i] + flows], entry [i + 1] is the list of
    the rounded positions [kp_next[j]] of the candidates
    [(trajs[i][j], kp_next[j])] that are appended, for increasing [j]. *)
Theorem trajectory_shrinks_in_order :
  forall (np_sqrt : Q -> Q) (frames : list image) (keypoints : list (Q * Q))
         (error_thresh : Q) (optflow_fn : flow_fn) (exclude_border : Z)
         (trajs : list (list (Q * Q))),
    track_features np_sqrt frames keypoints error_thresh optflow_fn exclude_border
    = Ok trajs ->
    forall (i : nat) (prev next : list (Q * Q)),
      nth_error trajs i = Some prev ->
      nth_error trajs (S i) = Some next ->
      (length next <= length prev)%nat
      /\ exists (I J : image) (flows kp_next : list (Q * Q)),
           nth_error frames i = Some I
           /\ nth_error frames (S i) = Some J
           /\ optflow_fn I J prev = Ok flows
           /\ np_add prev flows = Ok kp_next
           /\ length kp_next = length prev
           /\ next = map (fun row : (Q * Q) * (Q * Q) =>
                            (inject_Z (py_round (fst (snd row))),
                             inject_Z (py_round (snd (snd row)))))
                       (filter (survives np_sqrt I J error_thresh
                                  exclude_border 1)
                          (combine prev kp_next)).
Proof.
  intros np_sqrt frames kps thresh optflow eb trajs Ht i prev next Hp Hn.
  destruct (track_features_steps _ _ _ _ _ _ _ Ht) as (news & -> & C).
  destruct (chain_from_nth _ _ _ _ _ _ _ C Hp Hn)
    as (I & J & flows & nxt & HI & HJ & Hf & Ha & L & ->).
  cbn [Nat.add] in HI, HJ. split.
  - rewrite length_map.
    eapply Nat.le_trans; [apply filter_length_le|].
    rewrite length_combine, L. apply Nat.le_min_l.
  - exists I, J, flows, nxt. repeat split; assumption.
Qed.

(** C10.  The first entry of the trajectory is the input keypoint set as
    given.  Every keypoint [p] of entry [i + 1] is the rounding
    [(round(yj), round(xj))] of a row [(yj, xj)] of
    [kp_next = trajs[i] + flows], where [flows] is the result of the flow
    function on frames [i] and [i + 1]: for some index [j],
    [(yj, xj) = trajs[i][j] + f] with [f] a row of [flows], row [j] when
    [flows] has one row per keypoint, and the candidate [j] is one that is
    appended.  Its coordinates are integers. *)
Theorem trajectory_entries_are_rounded :
  forall (np_sqrt : Q -> Q) (frames : list image) (keypoints : list (Q * Q))
         (error_thresh : Q) (optflow_fn : flow_fn) (exclude_border : Z)
         (trajs : list (list (Q * Q))),
    track_features np_sqrt frames keypoints error_thresh optflow_fn exclude_border
    = Ok trajs ->
    nth_error trajs 0 = Some keypoints
    /\ forall (i : nat) (prev entry : list (Q * Q)) (p : Q * Q),
         nth_error trajs i = Some prev ->
         nth_error trajs (S i) = Some entry ->
         In p entry ->
         exists (I J : image) (flows kp_next : list (Q * Q)) (j : nat)
                (c f n : Q * Q),
           nth_error frames i = Some I
           /\ nth_error frames (S i) = Some J
           /\ optflow_fn I J prev = Ok flows
           /\ np_add prev flows = Ok kp_next
           /\ nth_error prev j = Some c
           /\ nth_error kp_next j = Some n
           /\ In f flows
           /\ (length flows = length prev -> nth_error flows j = Some f)
           /\ n = (fst c + fst f, snd c + snd f)
           /\ survives np_sqrt I J error_thresh exclude_border 1 (c, n) = true
           /\ p = (inject_Z (py_round (fst n)), inject_Z (py_round (snd n))).
Proof.
  intros np_sqrt frames kps thresh optflow eb trajs Ht.
  destruct (track_features_steps _ _ _ _ _ _ _ Ht) as (news & -> & C).
  split; [reflexivity|].
  intros i prev entry p Hp Hn Hin.
  destruct (chain_from_nth _ _ _ _ _ _ _ C Hp Hn)
    as (I & J & flows & nxt & HI & HJ & Hf & Ha & L & ->).
  cbn [Nat.add] in HI, HJ.
  apply in_map_iff in Hin. destruct Hin as ([c n] & <- & Hrow).
  apply filter_In in Hrow. destruct Hrow as [Hrow Hkeep].
  apply In_nth_error in Hrow. destruct Hrow as [j Hj].
  apply nth_error_combine_inv in Hj. destruct Hj as [Hc Hnx].
  destruct (np_add_nth _ _ _ _ _ _ Ha L Hc Hnx) as (f & Hfin & En & Hfj).
  exists I, J, flows, nxt, j, c, f, n.
  repeat split; try assumption. 
Qed.

Lemma trajectory_shrinks_in_order_witness :
  (length three_survivors <= length four_keypoints)%nat
  /\ exists (I J : image) (flows kp_next : list (Q * Q)),
       nth_error [textured; textured; textured] 0 = Some I
       /\ nth_error [textured; textured; textured] 1 = Some J
       /\ ilk5 I J four_keypoints = Ok flows
       /\ np_add four_keypoints flows = Ok kp_next
       /\ length kp_next = length four_keypoints
       /\ three_survivors
          = map (fun row : (Q * Q) * (Q * Q) =>
                   (inject_Z (py_round (fst (snd row))),
                    inject_Z (py_round (snd (snd row)))))
              (filter (survives sqrt_down I J (3 # 2) 5 1)
                 (combine four_keypoints kp_next)).
Proof.
  apply (trajectory_shrinks_in_order sqrt_down [textured; textured; textured]
           four_keypoints (3 # 2) ilk5 5
           [four_keypoints; three_survivors; three_survivors])
    with (i := 0%nat); [vm_compute; reflexivity | reflexivity | reflexivity].
Defined.

Lemma trajectory_entries_are_rounded_witness :
  exists (I J : image) (flows kp_next : list (Q * Q)) (j : nat)
         (c f n : Q * Q),
    nth_error [textured; textured; textured] 0 = Some I
    /\ nth_error [textured; textured; textured] 1 = Some J
    /\ ilk5 I J four_keypoints = Ok flows
    /\ np_add four_keypoints flows = Ok kp_next
    /\ nth_error four_keypoints j = Some c
    /\ nth_error kp_next j = Some n
    /\ In f flows
    /\ (length flows = length four_keypoints -> nth_error flows j = Some f)
    /\ n = (fst c + fst f, snd c + snd f)
    /\ survives sqrt_down I J (3 # 2) 5 1 (c, n) = true
    /\ (6, 6) = (inject_Z (py_round (fst n)), inject_Z (py_round (snd n))).
Proof.
  apply (proj2 (trajectory_entries_are_rounded sqrt_down
                  [textured; textured; textured] four_keypoints (3 # 2) ilk5 5
                  [four_keypoints; three_survivors; three_survivors]
                  ltac:(vm_compute; reflexivity))
           0%nat four_keypoints three_survivors (6, 6) eq_refl eq_refl).
  right; right; left; reflexivity.
Defined.

(** ** The patch error of a constant patch *)

Lemma fsum_Fin (l : list Q) : fsum (map Fin l) = Fin (np_sum l).
Proof.
  unfold fsum, np_sum. induction l as [|a l IH]; [reflexivity|].
  cbn [map fold_right]. rewrite IH. reflexivity.
Qed.

Lemma np_mean_nonempty (a : Q) (l : list Q) :
  np_mean (a :: l)
  = Fin (np_sum (a :: l) / inject_Z (Z.of_nat (length (a :: l)))).
Proof.
  unfold np_mean, fmean. rewrite fsum_Fin, length_map. reflexivity.
Qed.

Lemma np_sum_const (l : list Q) (c : Q) :
  (forall a, In a l -> a == c) ->
  np_sum l == inject_Z (Z.of_nat (length l)) * c.
Proof.
  unfold np_sum. induction l as [|a l IH]; intros H.
  - cbn. ring.
  - cbn [fold_right length]. rewrite IH by (intros b Hb; apply H; right; exact Hb).
    rewrite (H a (or_introl eq_refl)).
    rewrite Nat2Z.inj_succ. unfold Z.succ. rewrite inject_Z_plus. ring.
Qed.

Lemma inject_Z_length_nonzero {A : Type} (a : A) (l : list A) :
  ~ inject_Z (Z.of_nat (length (a :: l))) == 0.
Proof.
  unfold Qeq; cbn [Qnum Qden inject_Z length]. lia.
Qed.

Lemma np_div_zero_zero (a b : Q) : a == 0 -> b == 0 -> np_div a b = NaN.
Proof.
  intros Ha Hb. unfold np_div.
  apply Qeq_bool_iff in Hb. rewrite Hb.
  apply Qeq_alt in Ha. rewrite Ha. reflexivity.
Qed.

Section ConstantPatch.

Variable np_sqrt : Q -> Q.
Hypothesis np_sqrt_0 : forall q, q == 0 -> np_sqrt q == 0.

(** The standard deviation of a constant array is zero. *)
Lemma np_std_constant (l : list Q) (c : Q) :
  l <> [] -> (forall a, In a l -> a == c) ->
  exists s, np_std np_sqrt l = Fin s /\ s == 0.
Proof.
  intros Hne Hc. destruct l as [|a0 l]; [contradiction|].
  unfold np_std. rewrite np_mean_nonempty.
  set (n := inject_Z (Z.of_nat (length (a0 :: l)))).
  set (m := np_sum (a0 :: l) / n).
  assert (Hn : ~ n == 0) by apply inject_Z_length_nonzero.
  assert (Hm : m == c).
  { unfold m. rewrite (np_sum_const _ c Hc). fold n. field. exact Hn. }
  rewrite map_map.
  change (map (fun a => fmul (fsub (Fin a) (Fin m)) (fsub (Fin a) (Fin m)))
            (a0 :: l))
    with (map (fun a => Fin ((a + - m) * (a + - m))) (a0 :: l)).
  rewrite <- (map_map (fun a => (a + - m) * (a + - m)) Fin).
  change (fmean (map Fin ?l2)) with (np_mean l2).
  cbn [map]. rewrite np_mean_nonempty.
  set (sq := (a0 + - m) * (a0 + - m) :: map (fun a => (a + - m) * (a + - m)) l).
  assert (Hsq : np_sum sq == 0).
  { rewrite (np_sum_const sq 0); [ring|].
    intros b Hb. change sq with (map (fun a => (a + - m) * (a + - m)) (a0 :: l)) in Hb.
    apply in_map_iff in Hb. destruct Hb as (a & <- & Ha).
    rewrite (Hc a Ha), Hm. ring. }
  set (v := np_sum sq / inject_Z (Z.of_nat (length sq))).
  assert (Hv : v == 0).
  { unfold v. rewrite Hsq. unfold Qdiv. ring. }
  unfold fsqrt.
  assert (Hle : Qle_bool 0 v = true).
  { apply Qle_bool_iff. rewrite Hv. apply Qle_refl. }
  rewrite Hle. exists (np_sqrt v); split; [reflexivity | exact (np_sqrt_0 v Hv)].
Qed.

(** Normalising a constant patch divides 0 by 0 entry by entry. *)
Lemma normalize_constant (l : list Q) (c : Q) :
  (forall a, In a l -> a == c) ->
  Forall (fun x => x = NaN) (normalize np_sqrt l).
Proof.
  intros Hc. destruct l as [|a0 l]; [constructor|].
  destruct (np_std_constant (a0 :: l) c ltac:(discriminate) Hc) as (s & Hs & Hs0).
  unfold normalize. rewrite Hs, np_mean_nonempty.
  set (n := inject_Z (Z.of_nat (length (a0 :: l)))).
  assert (Hn : ~ n == 0) by apply inject_Z_length_nonzero.
  assert (Hm : np_sum (a0 :: l) / n == c).
  { rewrite (np_sum_const _ c Hc). fold n. field. exact Hn. }
  apply Forall_forall. intros x Hx.
  apply in_map_iff in Hx. destruct Hx as (a & <- & Ha).
  cbn [fsub fneg fadd fdiv]. apply np_div_zero_zero; [|exact Hs0].
  rewrite (Hc a Ha), Hm. ring.
Qed.

Lemma fmean_all_nan (l : list fnum) :
  Forall (fun x => x = NaN) l -> fmean l = NaN.
Proof.
  intros H. destruct H as [|x l -> _]; reflexivity.
Qed.

Lemma diff_all_nan (n1 n2 : list fnum) :
  Forall (fun x => x = NaN) n1 \/ Forall (fun x => x = NaN) n2 ->
  Forall (fun x => x = NaN)
    (map (fun a => fmul a a)
       (map (fun ab => fsub (fst ab) (snd ab)) (combine n1 n2))).
Proof.
  intros H. rewrite map_map. apply Forall_forall. intros x Hx.
  apply in_map_iff in Hx. destruct Hx as ([a b] & <- & Hab). cbn [fst snd].
  destruct H as [H|H].
  - apply in_combine_l in Hab.
    rewrite (proj1 (Forall_forall _ _) H a Hab). reflexivity.
  - apply in_combine_r in Hab.
    rewrite (proj1 (Forall_forall _ _) H b Hab).
    destruct a; reflexivity.
Qed.

(** The error of a pair of patches one of which is constant is [nan]. *)
Lemma compute_error_constant (p1 p2 : patch) (e : fnum) :
  constant_patch p1 \/ constant_patch p2 ->
  compute_error np_sqrt p1 p2 = Ok e -> e = NaN.
Proof.
  intros Hc. unfold compute_error.
  destruct (py_assert _); cbn [bind]; [|discriminate].
  intros [= <-]. apply fmean_all_nan, diff_all_nan.
  destruct Hc as [[c Hc]|[c Hc]]; [left | right];
    exact (normalize_constant _ c Hc).
Qed.

End ConstantPatch.

(** C3, as the code has it.  Nothing treats a constant patch as a maximal
    error.  For a candidate that passed the border test and whose two 3x3
    patches have one shape: when the current or the next patch is constant
    with an integer value, its mean is computed exactly, its normalisation
    divides 0 by 0, the patch error is [nan], the test
    [error > error_thresh] is false and the candidate's rounded next
    position is appended to the next trajectory entry. *)
Theorem constant_patch_keypoint_survives :
  forall (np_sqrt : Q -> Q) (I J : image) (error_thresh : Q)
         (exclude_border : Z) (yi xi yj xj : Q),
    (forall q, q == 0 -> np_sqrt q == 0) ->
    outside_border J exclude_border (py_round yj) (py_round xj) = false ->
    pshape (centred I (py_round yi) (py_round xi) 1)
    = pshape (centred J (py_round yj) (py_round xj) 1) ->
    integer_constant_patch (centred I (py_round yi) (py_round xi) 1)
    \/ integer_constant_patch (centred J (py_round yj) (py_round xj) 1) ->
    compute_error np_sqrt
      (centred I (py_round yi) (py_round xi) 1)
      (centred J (py_round yj) (py_round xj) 1) = Ok NaN
    /\ keypoint_fate np_sqrt I J error_thresh exclude_border 1
         ((yi, xi), (yj, xj))
       = Ok (Some (inject_Z (py_round yj), inject_Z (py_round xj))).
Proof.
  intros np_sqrt I J thresh eb yi xi yj xj H0 Hb Hshape Hc.
  assert (Hconst : constant_patch (centred I (py_round yi) (py_round xi) 1)
                   \/ constant_patch (centred J (py_round yj) (py_round xj) 1)).
  { destruct Hc as [(c & _ & Hc)|(c & _ & Hc)]; [left | right];
      exists (inject_Z c); exact Hc. }
  assert (He : compute_error np_sqrt
                 (centred I (py_round yi) (py_round xi) 1)
                 (centred J (py_round yj) (py_round xj) 1) = Ok NaN).
  { destruct (compute_error _ _ _) as [e|x] eqn:E.
    - rewrite (compute_error_constant np_sqrt H0 _ _ e Hconst E). reflexivity.
    - exfalso. unfold compute_error in E. rewrite Hshape, !Nat.eqb_refl in E.
      discriminate E. }
  split; [exact He|].
  unfold keypoint_fate. rewrite Hb, He. reflexivity.
Qed.

Lemma sqrt_down_0 (q : Q) : q == 0 -> sqrt_down q == 0.
Proof.
  destruct q as [n d]. unfold Qeq, sqrt_down; cbn [Qnum Qden].
  intros H. assert (n = 0%Z) as -> by lia. reflexivity.
Qed.

(** A keypoint on the flat centre of a frame that does not move: both 3x3
    patches are constant, the patch error is [nan], and the keypoint is in
    the next trajectory entry. *)
Lemma constant_patch_is_not_dropped :
  pdata (centred flat_centre 5 5 1) = [0; 0; 0; 0; 0; 0; 0; 0; 0]
  /\ compute_error sqrt_down (centred flat_centre 5 5 1) (centred flat_centre 5 5 1)
     = Ok NaN
  /\ track_features sqrt_down [flat_centre; flat_centre] [(5, 5)] (3 # 2) ilk5 5
     = Ok [[(5, 5)]; [(5, 5)]].
Proof. repeat split; vm_compute; reflexivity. Qed.

Lemma constant_patch_keypoint_survives_witness :
  compute_error sqrt_down
    (centred flat_centre (py_round 5) (py_round 5) 1)
    (centred flat_centre (py_round 5) (py_round 5) 1) = Ok NaN
  /\ keypoint_fate sqrt_down flat_centre flat_centre (3 # 2) 5 1 ((5, 5), (5, 5))
     = Ok (Some (inject_Z (py_round 5), inject_Z (py_round 5))).
Proof.
  apply (constant_patch_keypoint_survives sqrt_down flat_centre flat_centre
           (3 # 2) 5 5 5 5 5 sqrt_down_0).
  - vm_compute; reflexivity.
  - reflexivity.
  - left. exists 0%Z. split; [vm_compute; reflexivity|].
    intros a Ha. vm_compute in Ha.
    repeat (destruct Ha as [<-|Ha]; [reflexivity|]). contradiction.
Defined.

(** ** The border test *)

Lemma centred_inside (J : image) (r c : Z) :
  (1 <= r)%Z -> (r + 2 <= Z.of_nat (shape0 J))%Z ->
  (1 <= c)%Z -> (c + 2 <= Z.of_nat (shape1 J))%Z ->
  centred J r c 1
  = {| pshape := (3%nat, 3%nat);
       pdata := flat_map (fun i => map (fun j => px J i j)
                                     (seq (Z.to_nat (c - 1)) 3))
                  (seq (Z.to_nat (r - 1)) 3) |}.
Proof.
  intros Hr1 Hr2 Hc1 Hc2. unfold centred, window.
  rewrite (py_slice_inside (r - 1) (r + 1 + 1)) by lia.
  rewrite (py_slice_inside (c - 1) (c + 1 + 1)) by lia.
  replace (r + 1 + 1 - (r - 1))%Z with 3%Z by ring.
  replace (c + 1 + 1 - (c - 1))%Z with 3%Z by ring.
  reflexivity.
Qed.

(** C5, as the code has it.  With H x W the shape of the next frame and
    (r, c) the rounded next position: a candidate with r < exclude_border,
    r > H - exclude_border - 1, c < exclude_border or
    c > W - exclude_border - 1 is dropped; a candidate with
    exclude_border <= r <= H - exclude_border - 1 and
    exclude_border <= c <= W - exclude_border - 1 passes the border test, so
    a position exactly at exclude_border is kept unless its patch error
    exceeds the threshold; and for exclude_border >= 1 the 3x3 patch of a
    candidate that passed is read inside the next frame. *)
Theorem border_test_boundary :
  forall (np_sqrt : Q -> Q) (I J : image) (error_thresh : Q)
         (exclude_border : Z) (yi xi yj xj : Q),
    let r := py_round yj in
    let c := py_round xj in
    let H := Z.of_nat (shape0 J) in
    let W := Z.of_nat (shape1 J) in
    ((r < exclude_border \/ H - exclude_border - 1 < r
      \/ c < exclude_border \/ W - exclude_border - 1 < c)%Z ->
     keypoint_fate np_sqrt I J error_thresh exclude_border 1 ((yi, xi), (yj, xj))
     = Ok None)
    /\ ((exclude_border <= r <= H - exclude_border - 1)%Z ->
        (exclude_border <= c <= W - exclude_border - 1)%Z ->
        keypoint_fate np_sqrt I J error_thresh exclude_border 1 ((yi, xi), (yj, xj))
        = (error <- compute_error np_sqrt
                      (centred I (py_round yi) (py_round xi) 1)
                      (centred J r c 1) ;;
           if fgtb error error_thresh then Ok None
           else Ok (Some (inject_Z r, inject_Z c)))
        /\ ((1 <= exclude_border)%Z ->
            (Z.to_nat (r - 1) + 3 <= shape0 J)%nat
            /\ (Z.to_nat (c - 1) + 3 <= shape1 J)%nat
            /\ centred J r c 1
               = {| pshape := (3%nat, 3%nat);
                    pdata := flat_map (fun i => map (fun j => px J i j)
                                                  (seq (Z.to_nat (c - 1)) 3))
                               (seq (Z.to_nat (r - 1)) 3) |})).
Proof.
  intros np_sqrt I J thresh eb yi xi yj xj r c H W. split.
  - intros Hout. unfold keypoint_fate. fold r c.
    replace (outside_border J eb r c) with true; [reflexivity|].
    symmetry. unfold outside_border. fold H W.
    destruct (Z.gtb_spec r (H - eb - 1)); [reflexivity|].
    destruct (Z.ltb_spec r eb); [reflexivity|].
    destruct (Z.gtb_spec c (W - eb - 1)); [reflexivity|].
    destruct (Z.ltb_spec c eb); [reflexivity|]. lia.
  - intros Hr Hc. split.
    + unfold keypoint_fate. fold r c.
      replace (outside_border J eb r c) with false; [reflexivity|].
      symmetry. unfold outside_border. fold H W.
      destruct (Z.gtb_spec r (H - eb - 1)); [lia|].
      destruct (Z.ltb_spec r eb); [lia|].
      destruct (Z.gtb_spec c (W - eb - 1)); [lia|].
      destruct (Z.ltb_spec c eb); [lia|]. reflexivity.
    + intros Heb. unfold H, W in *.
      split; [lia|]. split; [lia|]. apply centred_inside; lia.
Qed.

(** A keypoint that stays on row 5 of a 12-row frame, with
    [exclude_border = 5]: its row is exactly at the exclusion margin and it
    is in the next trajectory entry. *)
Lemma keypoint_at_exclude_border_is_kept :
  outside_border textured 5 (py_round 5) (py_round 6) = false
  /\ track_features sqrt_down [textured; textured] [(5, 6)] (3 # 2) ilk5 5
     = Ok [[(5, 6)]; [(5, 6)]].
Proof. split; vm_compute; reflexivity. Qed.

Lemma border_test_boundary_witness :
  keypoint_fate sqrt_down textured textured (3 # 2) 5 1 ((4, 6), (4, 6)) = Ok None
  /\ (Z.to_nat (py_round 5 - 1) + 3 <= shape0 textured)%nat.
Proof.
  split.
  - apply (proj1 (border_test_boundary sqrt_down textured textured (3 # 2) 5
                    4 6 4 6)).
    left. vm_compute. reflexivity.
  - apply (proj2 (border_test_boundary sqrt_down textured textured (3 # 2) 5
                    5 6 5 6)); vm_compute; try split; congruence.
Defined.

(** * Further properties of the code *)

(** ** Slices and windows *)

(** A slice never has more indices than its bounds span. *)
Lemma py_slice_length_le (s e : Z) (n : nat) :
  (s <= e)%Z -> (Z.of_nat (length (py_slice s e n)) <= e - s)%Z.
Proof.
  intros Hse. unfold py_slice. rewrite length_seq.
  destruct (Z.ltb_spec s 0); destruct (Z.ltb_spec e 0); lia.
Qed.

(** Around an index of the axis, a window that crosses either end of the
    axis is cut short. *)
Lemma py_slice_crossing_short (r w : Z) (n : nat) :
  (0 <= r < Z.of_nat n)%Z ->
  (r < w \/ Z.of_nat n < r + w + 1)%Z ->
  (Z.of_nat (length (py_slice (r - w) (r + w + 1) n)) < 2 * w + 1)%Z.
Proof.
  intros Hr Hc. unfold py_slice. rewrite length_seq.
  destruct (Z.ltb_spec (r - w) 0); destruct (Z.ltb_spec (r + w + 1) 0); lia.
Qed.

(** Around an index within [w] of the start of an axis that is at least as
    long as the window, the slice is empty: its negative start counts from
    the end. *)
Lemma py_slice_start_empty (r w : Z) (n : nat) :
  (0 <= r < w)%Z -> (2 * w + 1 <= Z.of_nat n)%Z ->
  py_slice (r - w) (r + w + 1) n = [].
Proof.
  intros Hr Hn. unfold py_slice.
  destruct (Z.ltb_spec (r - w) 0); [|lia].
  destruct (Z.ltb_spec (r + w + 1) 0); [lia|].
  match goal with |- seq _ ?k = [] => replace k with 0%nat by lia end.
  reflexivity.
Qed.

(** A window wholly before the start of the axis is the window of the index
    moved by the length of the axis. *)
Lemma py_slice_wraps (r w : Z) (n : nat) :
  (0 <= w)%Z -> (w - Z.of_nat n <= r <= - w - 2)%Z ->
  py_slice (r - w) (r + w + 1) n
  = py_slice (r + Z.of_nat n - w) (r + Z.of_nat n + w + 1) n.
Proof.
  intros Hw Hr. unfold py_slice.
  destruct (Z.ltb_spec (r - w) 0); [|lia].
  destruct (Z.ltb_spec (r + w + 1) 0); [|lia].
  destruct (Z.ltb_spec (r + Z.of_nat n - w) 0); [lia|].
  destruct (Z.ltb_spec (r + Z.of_nat n + w + 1) 0); [lia|].
  f_equal; lia.
Qed.

Lemma window_length (img : image) (r0 r1 c0 c1 : Z) :
  length (pdata (window img r0 r1 c0 c1))
  = (length (py_slice r0 r1 (shape0 img)) * length (py_slice c0 c1 (shape1 img)))%nat.
Proof.
  unfold window; cbn [pdata].
  induction (py_slice r0 r1 (shape0 img)) as [|i rows IH]; [reflexivity|].
  cbn [flat_map length]. rewrite length_app, length_map, IH. reflexivity.
Qed.

Lemma window_no_rows (img : image) (r0 r1 c0 c1 : Z) :
  py_slice r0 r1 (shape0 img) = [] -> pdata (window img r0 r1 c0 c1) = [].
Proof. intros E. unfold window; cbn [pdata]. rewrite E. reflexivity. Qed.

Lemma window_no_cols (img : image) (r0 r1 c0 c1 : Z) :
  py_slice c0 c1 (shape1 img) = [] -> pdata (window img r0 r1 c0 c1) = [].
Proof.
  intros E. unfold window; cbn [pdata]. rewrite E.
  induction (py_slice r0 r1 (shape0 img)) as [|i rows IH]; [reflexivity|].
  cbn [flat_map map app]. exact IH.
Qed.

Lemma np_gradient_shapes (img Iy Ix : image) :
  np_gradient img = Ok (Iy, Ix) ->
  shape0 Iy = shape0 img /\ shape1 Iy = shape1 img
  /\ shape0 Ix = shape0 img /\ shape1 Ix = shape1 img.
Proof.
  unfold np_gradient. destruct (_ || _); [discriminate|].
  intros [= <- <-]. repeat split.
Qed.

(** A window of [window_size = 2 w + 1] that is cut short on either axis
    does not reshape to [window_size ** 2] rows. *)
Lemma reshape_col_cut_short (img : image) (y x w window_size : Z) :
  (0 <= w)%Z -> (window_size = 2 * w + 1)%Z ->
  (Z.of_nat (length (py_slice (y - w) (y + w + 1) (shape0 img))) < 2 * w + 1
   \/ Z.of_nat (length (py_slice (x - w) (x + w + 1) (shape1 img))) < 2 * w + 1)%Z ->
  reshape_col (centred img y x w) (window_size ^ 2) = Err ValueError.
Proof.
  intros Hw -> Hshort. unfold reshape_col, centred. rewrite window_length.
  pose proof (py_slice_length_le (y - w) (y + w + 1) (shape0 img) ltac:(lia)) as Hr.
  pose proof (py_slice_length_le (x - w) (x + w + 1) (shape1 img) ltac:(lia)) as Hc.
  set (a := length (py_slice (y - w) (y + w + 1) (shape0 img))) in *.
  set (b := length (py_slice (x - w) (x + w + 1) (shape1 img))) in *.
  destruct (Z.eqb_spec (Z.of_nat (a * b)) ((2 * w + 1) ^ 2)) as [E|]; [|reflexivity].
  exfalso. rewrite Nat2Z.inj_mul in E. nia.
Qed.

(** X1.  [lucas_kanade] on a keypoint of the frame whose window crosses the
    frame's edge: the window is cut short, its reshape to
    [window_size ** 2] rows raises, and the call returns no flow at all. *)
Theorem lucas_kanade_window_crossing_edge_raises :
  forall (img1 img2 : image) (keypoints : list (Q * Q)) (window_size : Z)
         (kp : Q * Q),
    (0 < window_size)%Z ->
    In kp keypoints ->
    let r := py_round (fst kp) in
    let c := py_round (snd kp) in
    let w := (window_size / 2)%Z in
    ((0 <= r < Z.of_nat (shape0 img1))%Z
     /\ (r < w \/ Z.of_nat (shape0 img1) < r + w + 1)%Z)
    \/ ((0 <= c < Z.of_nat (shape1 img1))%Z
        /\ (c < w \/ Z.of_nat (shape1 img1) < c + w + 1)%Z) ->
    exists e, lucas_kanade img1 img2 keypoints window_size = Err e.
Proof.
  intros img1 img2 kps ws kp Hpos Hin r c w Hcross.
  unfold lucas_kanade.
  destruct (Z.eqb_spec (ws mod 2) 1) as [Hodd|]; cbn [py_assert bind];
    [|eexists; reflexivity].
  destruct (np_gradient img1) as [[Iy Ix]|e] eqn:HG; cbn [bind];
    [|eexists; reflexivity].
  destruct (image_sub img2 img1) as [It|e]; cbn [bind]; [|eexists; reflexivity].
  destruct (mapr _ kps) as [out|e] eqn:Hm; [|eexists; reflexivity].
  destruct (mapr_Ok_all _ _ _ Hm _ Hin) as [b Hb].
  destruct (np_gradient_shapes _ _ _ HG) as (H0 & H1 & _ & _).
  exfalso. destruct kp as [y x]. unfold lucas_kanade_at in Hb.
  cbn [fst snd] in r, c. fold r c w in Hb.
  assert (Hw : (0 <= w)%Z) by (unfold w; apply Z.div_pos; lia).
  assert (Hws : (ws = 2 * w + 1)%Z).
  { unfold w. pose proof (Z.div_mod ws 2 ltac:(lia)). lia. }
  rewrite (reshape_col_cut_short Iy r c w ws Hw Hws) in Hb; [discriminate|].
  rewrite H0, H1. destruct Hcross as [[Hr Hc]|[Hr Hc]]; [left | right];
    apply py_slice_crossing_short; assumption.
Qed.

Lemma lucas_kanade_window_crossing_edge_raises_witness :
  exists e, lucas_kanade shift_ref shift_next [(2, 2); (4, 2)] 3 = Err e.
Proof.
  apply (lucas_kanade_window_crossing_edge_raises shift_ref shift_next
           [(2, 2); (4, 2)] 3 (4, 2)).
  - reflexivity.
  - right; left; reflexivity.
  - left. vm_compute. repeat split; try discriminate. right; reflexivity.
Defined.

Lemma odd_window_half (window_size : Z) :
  (window_size mod 2 = 1)%Z -> (window_size = 2 * (window_size / 2) + 1)%Z.
Proof. intros H. pose proof (Z.div_mod window_size 2 ltac:(lia)). lia. Qed.

(** X2.  [iterative_lucas_kanade] on a keypoint within [w] of the top or the
    left edge of a frame at least as large as the window: the slice starts
    at a negative index, which counts from the far end, so the window is
    empty, G is the zero matrix and the call raises. *)
Theorem iterative_lucas_kanade_near_start_edge_raises :
  forall (img1 img2 : image) (keypoints : list (Q * Q)) (window_size : Z)
         (num_iters : nat) (g : option (list (Q * Q))) (kp : Q * Q),
    In kp keypoints ->
    let r := py_round (fst kp) in
    let c := py_round (snd kp) in
    let w := (window_size / 2)%Z in
    ((0 <= r < w)%Z /\ (window_size <= Z.of_nat (shape0 img1))%Z)
    \/ ((0 <= c < w)%Z /\ (window_size <= Z.of_nat (shape1 img1))%Z) ->
    exists e, iterative_lucas_kanade img1 img2 keypoints window_size num_iters g
              = Err e.
Proof.
  intros img1 img2 kps ws K g kp Hin r c w Hedge.
  unfold iterative_lucas_kanade.
  destruct (Z.eqb_spec (ws mod 2) 1) as [Hodd|]; cbn [py_assert bind];
    [|eexists; reflexivity].
  destruct (np_gradient img1) as [[Iy Ix]|e] eqn:HG; cbn [bind];
    [|eexists; reflexivity].
  destruct (np_hstack _ _) as [rows|e] eqn:Hs; cbn [bind]; [|eexists; reflexivity].
  apply np_hstack_Ok in Hs; destruct Hs as [L ->].
  destruct (in_combine_left _ _ kp L Hin) as [gi Hrow].
  destruct (mapr _ _) as [out|e] eqn:Hm; [|eexists; reflexivity].
  destruct (mapr_Ok_all _ _ _ Hm _ Hrow) as [b Hb].
  destruct (np_gradient_shapes _ _ _ HG) as (Hy0 & Hy1 & Hx0 & Hx1).
  pose proof (odd_window_half ws Hodd) as Hws. fold w in Hws, Hb.
  rewrite ilk_at_singular in Hb; [discriminate|].
  unfold G_at. fold r c. unfold centred.
  assert (Ex : pdata (window Ix (r - w) (r + w + 1) (c - w) (c + w + 1)) = []).
  { destruct Hedge as [[Hr Hn]|[Hc Hn]].
    - apply window_no_rows. rewrite Hx0. apply py_slice_start_empty; lia.
    - apply window_no_cols. rewrite Hx1. apply py_slice_start_empty; lia. }
  assert (Ey : pdata (window Iy (r - w) (r + w + 1) (c - w) (c + w + 1)) = []).
  { destruct Hedge as [[Hr Hn]|[Hc Hn]].
    - apply window_no_rows. rewrite Hy0. apply py_slice_start_empty; lia.
    - apply window_no_cols. rewrite Hy1. apply py_slice_start_empty; lia. }
  rewrite Ex, Ey. reflexivity.
Qed.

Lemma iterative_lucas_kanade_near_start_edge_raises_witness :
  exists e, iterative_lucas_kanade textured textured [(6, 6); (1, 6)] 5 2 None
            = Err e.
Proof.
  apply (iterative_lucas_kanade_near_start_edge_raises textured textured
           [(6, 6); (1, 6)] 5 2 None (1, 6)).
  - right; left; reflexivity.
  - left. vm_compute. repeat split; discriminate.
Defined.

(** ** Negative keypoint coordinates *)

Lemma py_round_inject_Z (z : Z) : py_round (inject_Z z) = z.
Proof.
  unfold py_round. rewrite Qfloor_Z.
  replace (Qcompare (inject_Z z - inject_Z z) (1 # 2)) with Lt; [reflexivity|].
  symmetry. apply Qlt_alt.
  setoid_replace (inject_Z z - inject_Z z) with 0 by ring. reflexivity.
Qed.

Lemma mapr_map {A B C : Type} (h : A -> B) (f : B -> result C) (l : list A) :
  mapr f (map h l) = mapr (fun a => f (h a)) l.
Proof.
  induction l as [|a l IH]; [reflexivity|]. cbn [map mapr]. rewrite IH. reflexivity.
Qed.

Lemma centred_row_wraps (img : image) (r c w : Z) :
  (0 <= w)%Z -> (w - Z.of_nat (shape0 img) <= r <= - w - 2)%Z ->
  centred img r c w = centred img (r + Z.of_nat (shape0 img)) c w.
Proof.
  intros Hw Hr. unfold centred, window.
  rewrite (py_slice_wraps r w (shape0 img) Hw Hr). reflexivity.
Qed.

Lemma image_sub_shape0 (a b d : image) :
  shape0 a = shape0 b -> image_sub a b = Ok d -> shape0 d = shape0 b.
Proof.
  intros E. unfold image_sub, bcast_dim. rewrite E, Nat.eqb_refl.
  destruct (shape1 a =? shape1 b)%nat; [intros [= <-]; reflexivity|].
  destruct (shape1 a =? 1)%nat; [intros [= <-]; reflexivity|].
  destruct (shape1 b =? 1)%nat; [intros [= <-]; reflexivity | discriminate].
Qed.

(** X3.  [lucas_kanade] accepts keypoints above the frame: when the whole window
    of every keypoint lies at negative rows (not further than one frame
    height away), the slices count from the bottom of the frame, and the
    call returns exactly what it returns for the keypoints moved down by the
    frame height [H]. *)
Theorem lucas_kanade_negative_rows_wrap :
  forall (img1 img2 : image) (keypoints : list (Q * Q)) (window_size : Z),
    (0 <= window_size)%Z ->
    shape0 img2 = shape0 img1 ->
    (forall kp, In kp keypoints ->
       (window_size / 2 - Z.of_nat (shape0 img1) <= py_round (fst kp)
        <= - (window_size / 2) - 2)%Z) ->
    lucas_kanade img1 img2 keypoints window_size
    = lucas_kanade img1 img2
        (map (fun kp => (inject_Z (py_round (fst kp) + Z.of_nat (shape0 img1)),
                         snd kp)) keypoints)
        window_size.
Proof.
  intros img1 img2 kps ws Hpos Hsh Hband. unfold lucas_kanade.
  destruct (py_assert _); cbn [bind]; [|reflexivity].
  destruct (np_gradient img1) as [[Iy Ix]|e] eqn:HG; cbn [bind]; [|reflexivity].
  destruct (image_sub img2 img1) as [It|e] eqn:HI; cbn [bind]; [|reflexivity].
  rewrite mapr_map. apply mapr_ext. intros [y x] Hkp.
  specialize (Hband _ Hkp). cbn [fst snd] in *.
  destruct (np_gradient_shapes _ _ _ HG) as (Hy0 & _ & Hx0 & _).
  pose proof (image_sub_shape0 _ _ _ Hsh HI) as Ht0.
  assert (Hw : (0 <= ws / 2)%Z) by (apply Z.div_pos; lia).
  unfold lucas_kanade_at. rewrite py_round_inject_Z.
  rewrite (centred_row_wraps Iy), (centred_row_wraps Ix), (centred_row_wraps It)
    by (rewrite ?Hy0, ?Hx0, ?Ht0; assumption).
  rewrite Hy0, Hx0, Ht0. reflexivity.
Qed.

Lemma lucas_kanade_negative_rows_wrap_witness :
  lucas_kanade shift_ref shift_next [(-3, 2)] 3
  = lucas_kanade shift_ref shift_next
      (map (fun kp => (inject_Z (py_round (fst kp) + Z.of_nat (shape0 shift_ref)),
                       snd kp)) [(-3, 2)]) 3.
Proof.
  apply (lucas_kanade_negative_rows_wrap shift_ref shift_next [(-3, 2)] 3).
  - discriminate.
  - reflexivity.
  - intros kp [<-|[]]. vm_compute. split; discriminate.
Defined.

(** ** Frames without motion *)

Lemma py_round_comp (p q : Q) : p == q -> py_round p = py_round q.
Proof.
  intros E. unfold py_round. rewrite (Qfloor_comp _ _ E).
  assert (C : Qcompare (p - inject_Z (Qfloor q)) (1 # 2)
              = Qcompare (q - inject_Z (Qfloor q)) (1 # 2)).
  { apply Qcompare_comp; [rewrite E; reflexivity | reflexivity]. }
  rewrite C. reflexivity.
Qed.

Lemma np_sum_zero (l : list Q) : (forall a, In a l -> a == 0) -> np_sum l == 0.
Proof. intros H. rewrite (np_sum_const l 0 H). ring. Qed.

Lemma mapr_Forall {A B : Type} (f : A -> result B) (P : B -> Prop) :
  forall (l : list A) (out : list B),
    (forall a b, In a l -> f a = Ok b -> P b) ->
    mapr f l = Ok out -> Forall P out.
Proof.
  induction l as [|a l IH]; intros out HP; cbn [mapr].
  - intros [= <-]; constructor.
  - destruct (f a) as [b|e] eqn:Ea; cbn [bind]; [|discriminate].
    destruct (mapr f l) as [bs|e]; cbn [bind]; [|discriminate].
    intros [= <-]. constructor.
    + exact (HP a b (or_introl eq_refl) Ea).
    + apply IH; [|reflexivity]. intros x y Hx; apply HP; right; exact Hx.
Qed.

Lemma for_state_invariant {A S : Type} (f : S -> A -> result S) (P : S -> Prop) :
  (forall s a s', P s -> f s a = Ok s' -> P s') ->
  forall (l : list A) (s s' : S), P s -> for_state f s l = Ok s' -> P s'.
Proof.
  intros Hstep; induction l as [|a l IH]; intros s s' Hs; cbn [for_state].
  - intros [= <-]; exact Hs.
  - destruct (f s a) as [s1|e] eqn:E; cbn [bind]; [|discriminate].
    apply IH. exact (Hstep s a s1 Hs E).
Qed.

Lemma window_entries (img : image) (r0 r1 c0 c1 : Z) (a : Q) :
  In a (pdata (window img r0 r1 c0 c1)) -> exists i j, a = px img i j.
Proof.
  unfold window; cbn [pdata]. intros H. apply in_flat_map in H.
  destruct H as (i & _ & H). apply in_map_iff in H. destruct H as (j & <- & _).
  exists i, j; reflexivity.
Qed.

Lemma image_sub_self (img It : image) :
  image_sub img img = Ok It -> forall i j, px It i j == 0.
Proof.
  unfold image_sub, bcast_dim. rewrite !Nat.eqb_refl. intros [= <-] i j.
  cbn [px]. ring.
Qed.

Lemma mat2_vec_zero (m : mat2) (v : Q * Q) :
  fst v == 0 -> snd v == 0 ->
  fst (mat2_vec m v) == 0 /\ snd (mat2_vec m v) == 0.
Proof.
  destruct m as [[a b] [c d]], v as [v0 v1]; cbn [mat2_vec fst snd].
  intros -> ->. split; ring.
Qed.

(** X4.  [lucas_kanade] between a frame and itself: the temporal difference is
    zero everywhere, so every flow vector that is returned is zero. *)
Theorem lucas_kanade_same_frame_zero_flow :
  forall (img : image) (keypoints flows : list (Q * Q)) (window_size : Z),
    lucas_kanade img img keypoints window_size = Ok flows ->
    Forall (fun f => fst f == 0 /\ snd f == 0) flows.
Proof.
  intros img kps flows ws. unfold lucas_kanade.
  destruct (py_assert _); cbn [bind]; [|discriminate].
  destruct (np_gradient img) as [[Iy Ix]|e]; cbn [bind]; [|discriminate].
  destruct (image_sub img img) as [It|e] eqn:HI; cbn [bind]; [|discriminate].
  apply mapr_Forall. intros [y x] flow _. unfold lucas_kanade_at, reshape_col.
  destruct (_ =? _)%Z; cbn [bind]; [|discriminate].
  destruct (_ =? _)%Z; cbn [bind]; [|discriminate].
  destruct (_ =? _)%Z; cbn [bind]; [|discriminate].
  destruct (np_linalg_inv _) as [mi|e]; cbn [bind]; [|discriminate].
  intros [= <-]. apply mat2_vec_zero; unfold neg_AT_vec; cbn [fst snd];
    apply np_sum_zero; intros q Hq; apply in_map_iff in Hq;
    destruct Hq as ([[ax ay] t] & <- & Hin); cbn [fst snd];
    apply in_combine_r in Hin; apply window_entries in Hin;
    destruct Hin as (i & j & ->); rewrite (image_sub_self _ _ HI); ring.
Qed.

Lemma lucas_kanade_same_frame_zero_flow_witness :
  exists flows, lucas_kanade textured textured [(6, 6); (5, 7)] 5 = Ok flows
                /\ Forall (fun f => fst f == 0 /\ snd f == 0) flows.
Proof.
  eexists. split; [vm_compute; reflexivity|].
  apply (lucas_kanade_same_frame_zero_flow textured [(6, 6); (5, 7)])
    with (window_size := 5%Z).
  vm_compute; reflexivity.
Defined.

Lemma combine_diag {A : Type} (l : list A) (p : A * A) :
  In p (combine l l) -> fst p = snd p.
Proof.
  induction l as [|a l IH]; cbn [combine In]; [intros []|].
  intros [<-|H]; [reflexivity | exact (IH H)].
Qed.

Lemma bcast_col_mult_zero (a b out : list Q) :
  (forall x, In x a -> x == 0) ->
  bcast_col Qmult a b = Ok out -> forall z, In z out -> z == 0.
Proof.
  intros Ha. unfold bcast_col.
  destruct (length a =? length b)%nat.
  - intros [= <-] z Hz. apply in_map_iff in Hz. destruct Hz as ([x y] & <- & Hin).
    cbn [fst snd]. rewrite (Ha x (in_combine_l _ _ _ _ Hin)). ring.
  - destruct a as [|x [|x' a']].
    + destruct b as [|y [|y' b']]; try discriminate.
      intros [= <-] z [].
    + intros [= <-] z Hz. apply in_map_iff in Hz. destruct Hz as (y & <- & _).
      rewrite (Ha x (or_introl eq_refl)). ring.
    + destruct b as [|y [|y' b']]; try discriminate.
      intros [= <-] z Hz.
      change (In z (map (fun u => u * y) (x :: x' :: a'))) in Hz.
      apply in_map_iff in Hz. destruct Hz as (u & <- & Hu).
      rewrite (Ha u Hu). ring.
Qed.

Lemma ilk_iteration_same_frame (img : image) (w : Z) (y x : Q)
  (Ax Ay : list Q) (G_inv : mat2) (v v' : Q * Q) :
  fst v == 0 /\ snd v == 0 ->
  ilk_iteration img w y x 0 0
    (pdata (centred img (py_round y) (py_round x) w)) Ax Ay G_inv v = Ok v' ->
  fst v' == 0 /\ snd v' == 0.
Proof.
  destruct v as [vx vy]; cbn [fst snd]. intros [Hx Hy]. unfold ilk_iteration.
  rewrite (py_round_comp (y + 0 + vy) y) by (rewrite Hy; ring).
  rewrite (py_round_comp (x + 0 + vx) x) by (rewrite Hx; ring).
  set (A := pdata (centred img (py_round y) (py_round x) w)).
  assert (HIk : exists Ik, bcast_col Qminus A A = Ok Ik
                           /\ forall z, In z Ik -> z == 0).
  { unfold bcast_col. rewrite Nat.eqb_refl. eexists; split; [reflexivity|].
    intros z Hz. apply in_map_iff in Hz. destruct Hz as (p & <- & Hp).
    rewrite (combine_diag _ _ Hp). ring. }
  destruct HIk as (Ik & -> & HIk); cbn [bind].
  destruct (bcast_col Qmult Ik Ax) as [IkAx|e] eqn:E1; cbn [bind]; [|discriminate].
  destruct (bcast_col Qmult Ik Ay) as [IkAy|e] eqn:E2; cbn [bind]; [|discriminate].
  intros [= <-]; cbn [fst snd].
  destruct (mat2_vec_zero G_inv (np_sum IkAx, np_sum IkAy)) as [Z1 Z2].
  - apply np_sum_zero. exact (bcast_col_mult_zero _ _ _ HIk E1).
  - apply np_sum_zero. exact (bcast_col_mult_zero _ _ _ HIk E2).
  - rewrite Z1, Z2, Hx, Hy. split; ring.
Qed.

(** X5.  [iterative_lucas_kanade] between a frame and itself, from the default
    zero guess: every residual window is zero, no iteration moves the
    estimate, and every flow vector that is returned is zero. *)
Theorem iterative_lucas_kanade_same_frame_zero_flow :
  forall (img : image) (keypoints flows : list (Q * Q)) (window_size : Z)
         (num_iters : nat),
    iterative_lucas_kanade img img keypoints window_size num_iters None
    = Ok flows ->
    Forall (fun f => fst f == 0 /\ snd f == 0) flows.
Proof.
  intros img kps flows ws K. unfold iterative_lucas_kanade.
  destruct (py_assert _); cbn [bind]; [|discriminate].
  destruct (np_gradient img) as [[Iy Ix]|e]; cbn [bind]; [|discriminate].
  destruct (np_hstack _ _) as [rows|e] eqn:Hs; cbn [bind]; [|discriminate].
  apply np_hstack_Ok in Hs; destruct Hs as [_ ->].
  apply mapr_Forall. intros [[y x] [gy gx]] flow Hrow.
  apply in_combine_r in Hrow. apply in_map_iff in Hrow.
  destruct Hrow as (k & [= <- <-] & _).
  unfold iterative_lucas_kanade_at.
  destruct (np_linalg_inv _) as [G_inv|e]; cbn [bind]; [|discriminate].
  destruct (for_state _ _ _) as [[vx vy]|e] eqn:Hl; cbn [bind]; [|discriminate].
  intros [= <-]; cbn [fst snd].
  assert (Hv : fst (vx, vy) == 0 /\ snd (vx, vy) == 0).
  { refine (for_state_invariant _ (fun v => fst v == 0 /\ snd v == 0) _
              _ _ _ _ Hl).
    - intros s0 i0 s1 Hs0 Hstep.
      exact (ilk_iteration_same_frame _ _ _ _ _ _ _ _ _ Hs0 Hstep).
    - split; reflexivity. }
  cbn [fst snd] in Hv. tauto.
Qed.

Lemma iterative_lucas_kanade_same_frame_zero_flow_witness :
  exists flows,
    iterative_lucas_kanade textured textured [(6, 6); (5, 7)] 5 3 None = Ok flows
    /\ Forall (fun f => fst f == 0 /\ snd f == 0) flows.
Proof.
  eexists. split; [vm_compute; reflexivity|].
  apply (iterative_lucas_kanade_same_frame_zero_flow textured [(6, 6); (5, 7)])
    with (window_size := 5%Z) (num_iters := 3%nat).
  vm_compute; reflexivity.
Defined.

(** ** One flow vector per keypoint *)

Lemma mapr_nth {A B : Type} (f : A -> result B) :
  forall (l : list A) (out : list B) (i : nat) (a : A) (b : B),
    mapr f l = Ok out ->
    nth_error l i = Some a -> nth_error out i = Some b -> f a = Ok b.
Proof.
  induction l as [|x l IH]; intros out i a b; cbn [mapr].
  - intros _ H; destruct i; discriminate H.
  - destruct (f x) as [y|e] eqn:Ex; cbn [bind]; [|discriminate].
    destruct (mapr f l) as [ys|e]; cbn [bind]; [|discriminate].
    intros [= <-]. destruct i as [|i]; cbn [nth_error].
    + intros [= <-] [= <-]. exact Ex.
    + exact (IH ys i a b eq_refl).
Qed.

Lemma nth_error_combine {A B : Type} :
  forall (l : list A) (m : list B) (i : nat) (a : A) (b : B),
    nth_error l i = Some a -> nth_error m i = Some b ->
    nth_error (combine l m) i = Some (a, b).
Proof.
  induction l as [|x l IH]; intros m i a b Ha Hb; [destruct i; discriminate|].
  destruct m as [|y m]; [destruct i; discriminate|].
  destruct i as [|i]; cbn in *.
  - injection Ha as <-. injection Hb as <-. reflexivity.
  - exact (IH m i a b Ha Hb).
Qed.

(** X6.  The flow vector that [iterative_lucas_kanade] returns at index [i] is
    the one it returns when called on keypoint [i] and guess [i] alone: a
    keypoint's flow does not depend on the other keypoints of the call. *)
Theorem iterative_lucas_kanade_per_keypoint :
  forall (img1 img2 : image) (keypoints g flows : list (Q * Q))
         (window_size : Z) (num_iters : nat) (i : nat) (kp gi f : Q * Q),
    iterative_lucas_kanade img1 img2 keypoints window_size num_iters (Some g)
    = Ok flows ->
    nth_error keypoints i = Some kp ->
    nth_error g i = Some gi ->
    nth_error flows i = Some f ->
    iterative_lucas_kanade img1 img2 [kp] window_size num_iters (Some [gi])
    = Ok [f].
Proof.
  intros img1 img2 kps g flows ws K i kp gi f. unfold iterative_lucas_kanade.
  destruct (py_assert _); cbn [bind]; [|discriminate].
  destruct (np_gradient img1) as [[Iy Ix]|e]; cbn [bind]; [|discriminate].
  destruct (np_hstack kps g) as [rows|e] eqn:Hs; cbn [bind]; [|discriminate].
  apply np_hstack_Ok in Hs; destruct Hs as [_ ->].
  intros Hm Hk Hg Hf.
  pose proof (mapr_nth _ _ _ _ _ _ Hm (nth_error_combine _ _ _ _ _ Hk Hg) Hf) as E.
  cbn [np_hstack length Nat.eqb combine mapr bind]. rewrite E. reflexivity.
Qed.

Lemma iterative_lucas_kanade_per_keypoint_witness :
  exists f : Q * Q,
    iterative_lucas_kanade textured textured [(5, 7)] 5 1 (Some [(1, 0)])
    = Ok [f].
Proof.
  eexists.
  eapply (iterative_lucas_kanade_per_keypoint textured textured
            [(6, 6); (5, 7)] [(0, 0); (1, 0)])
    with (i := 1%nat);
    [vm_compute; reflexivity | reflexivity | reflexivity | reflexivity].
Defined.

(** X7.  With [num_iters = 0] the loop body never runs: whenever
    [iterative_lucas_kanade] returns, it returns the zero flow for every
    keypoint (it still inverts G first, and raises where G is singular). *)
Theorem iterative_lucas_kanade_no_iterations :
  forall (img1 img2 : image) (keypoints flows : list (Q * Q))
         (window_size : Z) (g : option (list (Q * Q))),
    iterative_lucas_kanade img1 img2 keypoints window_size 0 g = Ok flows ->
    flows = np_zeros keypoints.
Proof.
  intros img1 img2 kps flows ws g H.
  pose proof (iterative_lucas_kanade_length _ _ _ _ _ _ _ H) as L.
  assert (Z : Forall (fun f => f = (0, 0)) flows).
  { revert H. unfold iterative_lucas_kanade.
    destruct (py_assert _); cbn [bind]; [|discriminate].
    destruct (np_gradient img1) as [[Iy Ix]|e]; cbn [bind]; [|discriminate].
    destruct (np_hstack _ _) as [rows|e]; cbn [bind]; [|discriminate].
    apply mapr_Forall. intros [[y x] [gy gx]] b _.
    unfold iterative_lucas_kanade_at.
    destruct (np_linalg_inv _); cbn; [|discriminate]. intros [= <-]; reflexivity. }
  clear H. unfold np_zeros. revert kps L.
  induction Z as [|f flows -> _ IH]; intros [|k kps] L; try discriminate;
    [reflexivity|].
  cbn [map]. f_equal. apply IH. injection L as L; exact L.
Qed.

Lemma iterative_lucas_kanade_no_iterations_witness :
  iterative_lucas_kanade shift_ref shift_next [(2, 2); (2, 3)] 3 0 None
  = Ok (np_zeros [(2, 2); (2, 3)])
  /\ [(0, 0); (0, 0)] = np_zeros [(2, 2); (2, 3)].
Proof.
  split; [vm_compute; reflexivity|].
  apply (iterative_lucas_kanade_no_iterations shift_ref shift_next
           [(2, 2); (2, 3)] [(0, 0); (0, 0)] 3 None).
  vm_compute; reflexivity.
Defined.

(** ** The pyramid coordinator: result size and missing layers *)

Lemma np_add_same_length (a b out : list (Q * Q)) :
  length a = length b -> np_add a b = Ok out -> length out = length a.
Proof.
  intros L. unfold np_add. rewrite L, Nat.eqb_refl. intros [= <-].
  rewrite length_map, length_combine, L. apply Nat.min_id.
Qed.

Lemma coarse_to_fine_length (pyramid1 pyramid2 : list image) (window_size : Z)
  (num_iters : nat) (keypoints : list (Q * Q)) (s : Q) :
  forall (l : nat) (g out : list (Q * Q)),
    length g = length keypoints ->
    coarse_to_fine (refine_on pyramid1 pyramid2 window_size num_iters)
      keypoints s l g = Ok out ->
    length out = length keypoints.
Proof.
  induction l as [|l IH]; intros g out Lg; cbn [coarse_to_fine];
    unfold refine_on at 1;
    (destruct (py_index pyramid1 _) as [i1|e]; cbn [bind]; [|discriminate]);
    (destruct (py_index pyramid2 _) as [i2|e]; cbn [bind]; [|discriminate]);
    (destruct (iterative_lucas_kanade _ _ _ _ _ _) as [d|e] eqn:Hd; cbn [bind];
       [|discriminate]);
    (destruct (np_add g d) as [gd|e] eqn:Ha; cbn [bind]; [|discriminate]);
    apply iterative_lucas_kanade_length in Hd;
    unfold np_div_scalar in Hd; rewrite length_map in Hd;
    pose proof (np_add_same_length g d gd ltac:(congruence) Ha) as Lgd.
  - intros [= <-]. congruence.
  - apply IH. unfold np_scale. rewrite length_map. congruence.
Qed.

(** X11.  Whenever [pyramid_lucas_kanade] returns, it returns one flow vector per
    keypoint. *)
Theorem pyramid_lucas_kanade_length :
  forall (pyramid_layers : image -> nat -> Q -> list image)
         (img1 img2 : image) (keypoints flows : list (Q * Q))
         (window_size : Z) (num_iters level : nat) (scale : Q),
    pyramid_lucas_kanade pyramid_layers img1 img2 keypoints window_size
      num_iters level scale = Ok flows ->
    length flows = length keypoints.
Proof.
  intros layers img1 img2 kps flows ws K level scale. unfold pyramid_lucas_kanade.
  destruct (pyramid_gaussian layers img1 level scale) as [p1|e]; cbn [bind];
    [|discriminate].
  destruct (pyramid_gaussian layers img2 level scale) as [p2|e]; cbn [bind];
    [|discriminate].
  intros H.
  apply (coarse_to_fine_length p1 p2 ws K kps scale level (np_zeros kps));
    [apply np_zeros_length|].
  rewrite <- (pyramid_loop_coarse_to_fine p1 p2 kps ws K scale level
                (np_zeros kps) None).
  destruct (for_state _ _ _) as [[g d]|e]; exact H.
Qed.

Lemma pyramid_lucas_kanade_length_witness :
  exists flows,
    pyramid_lucas_kanade (fun img _ _ => [img; img]) textured textured
      [(6, 6); (5, 7)] 5 2 1 2 = Ok flows
    /\ length flows = 2%nat.
Proof.
  eexists. split; [vm_compute; reflexivity|].
  apply (pyramid_lucas_kanade_length (fun img _ _ => [img; img]) textured textured
           [(6, 6); (5, 7)])
    with (window_size := 5%Z) (num_iters := 2%nat) (level := 1%nat) (scale := 2).
  vm_compute; reflexivity.
Defined.

Lemma levels_down_head (level : nat) :
  exists rest, levels_down level = level :: rest.
Proof.
  destruct level as [|n]; [exists []; reflexivity|].
  exists (levels_down n). apply levels_down_S.
Qed.

(** X12.  The loop starts at [pyramid[level]]: when the pyramid builder yields
    fewer than [level + 1] layers for either frame (it stops once a layer no
    longer shrinks), [pyramid_lucas_kanade] raises [IndexError] before any
    flow is computed. *)
Theorem pyramid_lucas_kanade_missing_layer :
  forall (pyramid_layers : image -> nat -> Q -> list image)
         (img1 img2 : image) (keypoints : list (Q * Q)) (window_size : Z)
         (num_iters level : nat) (scale : Q),
    1 < scale ->
    (length (pyramid_layers img1 level scale) <= level)%nat
    \/ (length (pyramid_layers img2 level scale) <= level)%nat ->
    pyramid_lucas_kanade pyramid_layers img1 img2 keypoints window_size
      num_iters level scale = Err IndexError.
Proof.
  intros layers img1 img2 kps ws K level scale Hs Hshort.
  unfold pyramid_lucas_kanade, pyramid_gaussian.
  assert (Hle : Qle_bool scale 1 = false).
  { destruct (Qle_bool scale 1) eqn:E; [|reflexivity].
    apply Qle_bool_iff in E. exfalso; exact (Qlt_not_le _ _ Hs E). }
  rewrite Hle; cbn [bind].
  destruct (levels_down_head level) as [rest ->]. cbn [for_state].
  unfold pyramid_level at 1, py_index; cbn [fst].
  destruct (nth_error (layers img1 level scale) level) as [i1|] eqn:E1; cbn [bind].
  - destruct (nth_error (layers img2 level scale) level) as [i2|] eqn:E2;
      cbn [bind]; [|reflexivity].
    exfalso. destruct Hshort as [H|H]; apply nth_error_None in H; congruence.
  - reflexivity.
Qed.

Lemma pyramid_lucas_kanade_missing_layer_witness :
  pyramid_lucas_kanade (fun img _ _ => [img]) textured textured [(6, 6)] 5 2 1 2
  = Err IndexError.
Proof.
  apply (pyramid_lucas_kanade_missing_layer (fun img _ _ => [img]));
    [reflexivity | left; apply le_n].
Defined.

(** ** The row model and the arrays with their shape

    The functions on lists of rows compute what the functions on arrays
    with their shape compute on the arrays [np_array rows]: every array with
    a row at least, and [np.array([])]. *)

Lemma nd_hstack_np_array (a b : list (Q * Q)) :
  nd_hstack (np_array a) (np_array b) = np_hstack a b.
Proof. destruct a as [|x a], b as [|y b]; reflexivity. Qed.

Lemma nd_zeros_np_array (a : list (Q * Q)) :
  nd_zeros (np_array a) = np_array (np_zeros a).
Proof. destruct a; reflexivity. Qed.

Lemma nd_div_scalar_np_array (a : list (Q * Q)) (s : Q) :
  nd_div_scalar (np_array a) s = np_array (np_div_scalar a s).
Proof. destruct a; reflexivity. Qed.

Lemma nd_scale_np_array (s : Q) (a : list (Q * Q)) :
  nd_scale s (np_array a) = np_array (np_scale s a).
Proof. destruct a; reflexivity. Qed.

Lemma nd_add_np_array (a b : list (Q * Q)) :
  length a = length b ->
  nd_add (np_array a) (np_array b) = (r <- np_add a b ;; Ok (np_array r)).
Proof.
  destruct a as [|x a], b as [|y b]; try discriminate; intros L;
    [reflexivity|].
  cbn [np_array nd_add]. unfold np_add. rewrite L, Nat.eqb_refl. reflexivity.
Qed.

Lemma iterative_lucas_kanade_nd_rows (img1 img2 : image)
  (keypoints : list (Q * Q)) (window_size : Z) (num_iters : nat)
  (g : option (list (Q * Q))) :
  iterative_lucas_kanade_nd img1 img2 (np_array keypoints) window_size num_iters
    (option_map np_array g)
  = (flows <- iterative_lucas_kanade img1 img2 keypoints window_size num_iters g ;;
     Ok (np_array flows)).
Proof.
  unfold iterative_lucas_kanade_nd, iterative_lucas_kanade.
  destruct (py_assert _); cbn [bind]; [|reflexivity].
  destruct (np_gradient img1) as [[Iy Ix]|e]; cbn [bind]; [|reflexivity].
  destruct g as [g|]; cbn [option_map].
  - rewrite nd_hstack_np_array.
    destruct (np_hstack keypoints g) as [rows|e]; reflexivity.
  - rewrite nd_zeros_np_array, nd_hstack_np_array.
    destruct (np_hstack keypoints (np_zeros keypoints)) as [rows|e]; reflexivity.
Qed.

Section RowsAndArrays.

Variables pyramid1 pyramid2 : list image.
Variable keypoints : list (Q * Q).
Variable window_size : Z.
Variable num_iters : nat.
Variable scale : Q.

Lemma pyramid_level_nd_rows (st : list (Q * Q) * option (list (Q * Q)))
  (L : nat) :
  level_state_ok keypoints st ->
  match pyramid_level pyramid1 pyramid2 keypoints window_size num_iters scale
          st L with
  | Ok st' =>
      pyramid_level_nd pyramid1 pyramid2 (np_array keypoints) window_size
        num_iters scale (level_state_nd st) L = Ok (level_state_nd st')
      /\ level_state_ok keypoints st'
  | Err e =>
      pyramid_level_nd pyramid1 pyramid2 (np_array keypoints) window_size
        num_iters scale (level_state_nd st) L = Err e
  end.
Proof.
  destruct st as [g od]. intros [Lg _]; cbn [fst snd] in Lg.
  unfold pyramid_level, pyramid_level_nd, level_state_nd; cbn [fst snd].
  destruct (py_index pyramid1 L) as [i1|e]; cbn [bind]; [|reflexivity].
  destruct (py_index pyramid2 L) as [i2|e]; cbn [bind]; [|reflexivity].
  rewrite nd_div_scalar_np_array.
  rewrite (iterative_lucas_kanade_nd_rows i1 i2 _ window_size num_iters (Some g)).
  destruct (iterative_lucas_kanade _ _ _ _ _ _) as [d|e] eqn:Hd; cbn [bind];
    [|reflexivity].
  apply iterative_lucas_kanade_length in Hd.
  unfold np_div_scalar in Hd; rewrite length_map in Hd.
  destruct (negb (L =? 0)%nat).
  - rewrite nd_add_np_array by (rewrite Lg, Hd; reflexivity).
    destruct (np_add g d) as [gd|e] eqn:Ha; cbn [bind]; [|reflexivity].
    rewrite nd_scale_np_array. split; [reflexivity|].
    split; cbn [fst snd]; [|exact Hd].
    unfold np_scale. rewrite length_map.
    rewrite (np_add_same_length g d gd) by (rewrite ?Lg, ?Hd; auto).
    exact Lg.
  - split; [reflexivity|]. split; cbn [fst snd]; assumption.
Qed.

Lemma pyramid_loop_nd_rows :
  forall (levels : list nat) (st : list (Q * Q) * option (list (Q * Q))),
    level_state_ok keypoints st ->
    match for_state
            (pyramid_level pyramid1 pyramid2 keypoints window_size num_iters scale)
            st levels with
    | Ok st' =>
        for_state
          (pyramid_level_nd pyramid1 pyramid2 (np_array keypoints) window_size
             num_iters scale) (level_state_nd st) levels
        = Ok (level_state_nd st')
        /\ level_state_ok keypoints st'
    | Err e =>
        for_state
          (pyramid_level_nd pyramid1 pyramid2 (np_array keypoints) window_size
             num_iters scale) (level_state_nd st) levels
        = Err e
    end.
Proof.
  induction levels as [|L levels IH]; intros st Hst; cbn [for_state].
  - split; [reflexivity | exact Hst].
  - pose proof (pyramid_level_nd_rows st L Hst) as Hstep.
    destruct (pyramid_level _ _ _ _ _ _ st L) as [st1|e]; cbn [bind].
    + destruct Hstep as [-> Hst1]. cbn [bind]. exact (IH st1 Hst1).
    + rewrite Hstep. reflexivity.
Qed.

End RowsAndArrays.

(** [pyramid_lucas_kanade] on rows is [pyramid_lucas_kanade] on the array of
    these rows. *)
Lemma pyramid_lucas_kanade_nd_rows
  (pyramid_layers : image -> nat -> Q -> list image) (img1 img2 : image)
  (keypoints : list (Q * Q)) (window_size : Z) (num_iters level : nat)
  (scale : Q) :
  pyramid_lucas_kanade_nd pyramid_layers img1 img2 (np_array keypoints)
    window_size num_iters level scale
  = (flows <- pyramid_lucas_kanade pyramid_layers img1 img2 keypoints
                window_size num_iters level scale ;;
     Ok (np_array flows)).
Proof.
  unfold pyramid_lucas_kanade_nd, pyramid_lucas_kanade.
  destruct (pyramid_gaussian pyramid_layers img1 level scale) as [p1|e];
    cbn [bind]; [|reflexivity].
  destruct (pyramid_gaussian pyramid_layers img2 level scale) as [p2|e];
    cbn [bind]; [|reflexivity].
  rewrite nd_zeros_np_array.
  assert (H0 : level_state_ok keypoints (np_zeros keypoints, None))
    by (split; [apply np_zeros_length | exact Logic.I]).
  pose proof (pyramid_loop_nd_rows p1 p2 keypoints window_size num_iters scale
                (levels_down level) (np_zeros keypoints, None) H0) as Hloop.
  destruct (for_state (pyramid_level _ _ _ _ _ _) _ _) as [[g od]|e];
    unfold level_state_nd in Hloop; cbn [fst snd option_map] in Hloop;
    cbn [bind].
  - destruct Hloop as [-> [Lg Ld]]. cbn [fst snd bind] in *.
    destruct od as [d|]; cbn [option_map]; [|reflexivity].
    apply nd_add_np_array. rewrite Lg, Ld. reflexivity.
  - rewrite Hloop. reflexivity.
Qed.

(** ** The patch error *)

Lemma fmul_self_nonneg (a : fnum) : fnonneg (fmul a a).
Proof.
  destruct a as [q| | |]; cbn; try exact I.
  destruct (Qlt_le_dec q 0) as [H|H].
  - setoid_replace (q * q) with ((- q) * (- q)) by ring.
    apply Qmult_le_0_compat; lra.
  - apply Qmult_le_0_compat; exact H.
Qed.

Lemma fadd_nonneg (a b : fnum) : fnonneg a -> fnonneg b -> fnonneg (fadd a b).
Proof.
  destruct a as [p| | |], b as [q| | |]; cbn; try tauto. intros; lra.
Qed.

Lemma fsum_nonneg (l : list fnum) : Forall fnonneg l -> fnonneg (fsum l).
Proof.
  unfold fsum. induction 1 as [|a l Ha _ IH]; cbn [fold_right].
  - cbn. lra.
  - apply fadd_nonneg; assumption.
Qed.

Lemma fmean_nonneg (l : list fnum) : Forall fnonneg l -> fnonneg (fmean l).
Proof.
  intros H. unfold fmean. pose proof (fsum_nonneg l H) as Hs.
  set (n := inject_Z (Z.of_nat (length l))).
  assert (Hn : 0 <= n).
  { unfold n. change 0 with (inject_Z 0). rewrite <- Zle_Qle. lia. }
  destruct (fsum l) as [p| | |]; cbn [fdiv fnonneg] in *.
  - unfold np_div. destruct (Qeq_bool n 0) eqn:E.
    + destruct (Qcompare p 0) eqn:C; cbn; try exact I.
      apply Qlt_alt in C. lra.
    + cbn. apply Qeq_bool_neq in E.
      apply Qle_shift_div_l; [|lra].
      destruct (Qle_lt_or_eq _ _ Hn) as [Hlt|Heq]; [exact Hlt|].
      exfalso; apply E; symmetry; exact Heq.
  - apply Qle_bool_iff in Hn. rewrite Hn. exact I.
  - contradiction.
  - exact I.
Qed.

(** X13.  The patch error is never negative: whenever [compute_error] returns, it
    returns a finite number that is at least 0, [inf] or [nan]. *)
Theorem compute_error_nonneg :
  forall (np_sqrt : Q -> Q) (patch1 patch2 : patch) (e : fnum),
    compute_error np_sqrt patch1 patch2 = Ok e -> fnonneg e.
Proof.
  intros np_sqrt p1 p2 e. unfold compute_error.
  destruct (py_assert _); cbn [bind]; [|discriminate].
  intros [= <-]. apply fmean_nonneg. apply Forall_forall.
  intros x Hx. apply in_map_iff in Hx. destruct Hx as (d & <- & _).
  apply fmul_self_nonneg.
Qed.

Lemma compute_error_nonneg_witness :
  exists e, compute_error sqrt_down (centred textured 5 6 1) (centred textured 6 6 1)
            = Ok e
            /\ fnonneg e.
Proof.
  eexists. split; [vm_compute; reflexivity|].
  apply (compute_error_nonneg sqrt_down (centred textured 5 6 1)
           (centred textured 6 6 1)).
  vm_compute; reflexivity.
Defined.

Lemma np_std_finite_nonempty (np_sqrt : Q -> Q) (l : list Q) (s : Q) :
  np_std np_sqrt l = Fin s -> l <> [].
Proof. intros H ->. vm_compute in H. discriminate H. Qed.

Lemma normalize_finite (np_sqrt : Q -> Q) (l : list Q) (s : Q) :
  np_std np_sqrt l = Fin s -> ~ s == 0 ->
  exists f : Q -> Q, normalize np_sqrt l = map Fin (map f l).
Proof.
  intros Hs Hne. pose proof (np_std_finite_nonempty _ _ _ Hs) as Hl.
  destruct l as [|a0 l]; [contradiction|].
  unfold normalize. rewrite Hs, np_mean_nonempty.
  set (m := np_sum (a0 :: l) / inject_Z (Z.of_nat (length (a0 :: l)))).
  exists (fun a => (a + - m) / s). rewrite map_map. apply map_ext. intros a.
  cbn [fsub fneg fadd fdiv]. unfold np_div.
  destruct (Qeq_bool s 0) eqn:E; [|reflexivity].
  apply Qeq_bool_iff in E. contradiction.
Qed.

(** X14.  A patch compared with itself has error zero whenever its standard
    deviation is a finite non-zero number (for a constant patch the error is
    [nan] instead). *)
Theorem compute_error_same_patch_zero :
  forall (np_sqrt : Q -> Q) (p : patch) (s : Q),
    np_std np_sqrt (pdata p) = Fin s -> ~ s == 0 ->
    exists e, compute_error np_sqrt p p = Ok (Fin e) /\ e == 0.
Proof.
  intros np_sqrt p s Hs Hne. unfold compute_error.
  rewrite !Nat.eqb_refl; cbn [py_assert bind].
  destruct (normalize_finite _ _ _ Hs Hne) as [f ->].
  pose proof (np_std_finite_nonempty _ _ _ Hs) as Hl.
  set (xs := map f (pdata p)).
  assert (Hd : map (fun a => fmul a a)
                 (map (fun ab => fsub (fst ab) (snd ab))
                    (combine (map Fin xs) (map Fin xs)))
               = map Fin (map (fun x => (x + - x) * (x + - x)) xs)).
  { induction xs as [|x xs IH]; [reflexivity|].
    cbn [map combine fst snd]. rewrite IH. reflexivity. }
  rewrite Hd. change (fmean (map Fin ?l)) with (np_mean l).
  destruct (pdata p) as [|a0 l]; [contradiction|].
  unfold xs. cbn [map]. rewrite np_mean_nonempty.
  eexists; split; [reflexivity|].
  rewrite np_sum_zero; [unfold Qdiv; ring|].
  intros z Hz. change (In z (map (fun x => (x + - x) * (x + - x))
                                (map f (a0 :: l)))) in Hz.
  apply in_map_iff in Hz. destruct Hz as (x & <- & _). ring.
Qed.

Lemma compute_error_same_patch_zero_witness :
  exists e, compute_error sqrt_down (centred textured 5 6 1) (centred textured 5 6 1)
            = Ok (Fin e) /\ e == 0.
Proof.
  eapply (compute_error_same_patch_zero sqrt_down (centred textured 5 6 1)).
  - vm_compute. reflexivity.
  - vm_compute. discriminate.
Defined.

(** ** The tracker *)

Lemma fgtb_monotone (e : fnum) (t1 t2 : Q) :
  t1 <= t2 -> fgtb e t2 = true -> fgtb e t1 = true.
Proof.
  intros Ht. destruct e as [q| | |]; cbn; try tauto.
  destruct (Qle_bool q t2) eqn:E2; [discriminate|]. intros _.
  destruct (Qle_bool q t1) eqn:E1; [|reflexivity].
  apply Qle_bool_iff in E1.
  assert (Qle_bool q t2 = true) by (apply Qle_bool_iff; lra). congruence.
Qed.

Lemma filter_mapr_monotone {A B : Type} (f1 f2 : A -> result (option B)) :
  (forall a o1, f1 a = Ok o1 ->
     exists o2, f2 a = Ok o2 /\ forall b, o1 = Some b -> o2 = Some b) ->
  forall (l : list A) (out1 : list B),
    filter_mapr f1 l = Ok out1 ->
    exists out2, filter_mapr f2 l = Ok out2 /\ subseq out1 out2.
Proof.
  intros Hf; induction l as [|a l IH]; intros out1; cbn [filter_mapr].
  - intros [= <-]. exists []; split; [reflexivity | constructor].
  - destruct (f1 a) as [o1|e] eqn:E1; cbn [bind]; [|discriminate].
    destruct (filter_mapr f1 l) as [bs1|e]; cbn [bind]; [|discriminate].
    intros [= <-]. destruct (Hf a o1 E1) as (o2 & -> & Ho).
    destruct (IH bs1 eq_refl) as (bs2 & -> & Hsub). cbn [bind].
    eexists; split; [reflexivity|].
    destruct o1 as [b|].
    + rewrite (Ho b eq_refl). constructor; exact Hsub.
    + destruct o2; [constructor|]; exact Hsub.
Qed.

(** X15.  Raising the error threshold never loses a keypoint: a transition that
    succeeds with threshold [t1] succeeds with any [t2 >= t1], and its
    survivors with [t1] are among its survivors with [t2], in the same
    order. *)
Theorem track_pair_threshold_monotone :
  forall (np_sqrt : Q -> Q) (optflow_fn : flow_fn) (t1 t2 : Q)
         (exclude_border w : Z) (I J : image) (kp_curr new1 : list (Q * Q)),
    t1 <= t2 ->
    track_pair np_sqrt optflow_fn t1 exclude_border w I J kp_curr = Ok new1 ->
    exists new2,
      track_pair np_sqrt optflow_fn t2 exclude_border w I J kp_curr = Ok new2
      /\ subseq new1 new2.
Proof.
  intros np_sqrt optflow t1 t2 eb w I J kp new1 Ht. unfold track_pair.
  destruct (optflow I J kp) as [flows|e]; cbn [bind]; [|discriminate].
  destruct (np_add kp flows) as [nxt|e]; cbn [bind]; [|discriminate].
  destruct (np_hstack kp nxt) as [rows|e]; cbn [bind]; [|discriminate].
  apply filter_mapr_monotone. intros [[yi xi] [yj xj]] o1. unfold keypoint_fate.
  destruct (outside_border _ _ _ _).
  - intros [= <-]. exists None; split; [reflexivity | discriminate].
  - destruct (compute_error _ _ _) as [err|e]; cbn [bind]; [|discriminate].
    destruct (fgtb err t2) eqn:E2.
    + rewrite (fgtb_monotone err t1 t2 Ht E2). intros [= <-].
      exists None; split; [reflexivity | discriminate].
    + destruct (fgtb err t1); intros [= <-]; eexists; split; try reflexivity;
        [discriminate | tauto].
Qed.

Lemma track_pair_threshold_monotone_witness :
  exists new2,
    track_pair sqrt_down ilk5 2 5 1 textured textured four_keypoints = Ok new2
    /\ subseq three_survivors new2.
Proof.
  apply (track_pair_threshold_monotone sqrt_down ilk5 (3 # 2) 2 5 1
           textured textured four_keypoints three_survivors).
  - discriminate.
  - vm_compute; reflexivity.
Defined.

Section TrackerLoop.

Variable np_sqrt : Q -> Q.
Variable optflow_fn : flow_fn.
Variable error_thresh : Q.
Variable exclude_border : Z.
Variable frames : list image.
Variable w : Z.

(** Every entry appended by the loop is the result of a transition into a
    frame of the sequence. *)
Lemma track_loop_entries (P : list (Q * Q) -> Prop) :
  (forall I J kp new,
     In J frames ->
     track_pair np_sqrt optflow_fn error_thresh exclude_border w I J kp = Ok new ->
     P new) ->
  forall (idxs : list nat) (kp : list (Q * Q)) (trajs : list (list (Q * Q)))
         (st : list (Q * Q) * list (list (Q * Q))),
    for_state (track_frame np_sqrt frames optflow_fn error_thresh
                 exclude_border w) (kp, trajs) idxs = Ok st ->
    exists news, snd st = trajs ++ news
                 /\ length news = length idxs
                 /\ Forall P news.
Proof.
  intros HP; induction idxs as [|i idxs IH]; intros kp trajs st; cbn [for_state].
  - intros [= <-]. exists []; repeat split; [symmetry; apply app_nil_r | constructor].
  - unfold track_frame at 1.
    destruct (py_index frames i) as [I|e]; cbn [bind]; [|discriminate].
    destruct (py_index frames (i + 1)) as [J|e] eqn:EJ; cbn [bind]; [|discriminate].
    destruct (track_pair _ _ _ _ _ _ _ _) as [kp1|e] eqn:Hp; cbn [bind];
      [|discriminate].
    intros Hrest. destruct (IH _ _ _ Hrest) as (news & E & L & F).
    exists (kp1 :: news); repeat split.
    + rewrite E, <- app_assoc. reflexivity.
    + cbn [length]. rewrite L. reflexivity.
    + constructor; [|exact F]. apply (HP I J kp kp1); [|exact Hp].
      unfold py_index in EJ.
      destruct (nth_error frames (i + 1)) eqn:En; [|discriminate].
      injection EJ as ->. exact (nth_error_In _ _ En).
Qed.

End TrackerLoop.

(** X16.  A trajectory has one entry per frame, and a single entry, the input
    keypoints, when there is no frame at all. *)
Theorem trajectory_length :
  forall (np_sqrt : Q -> Q) (frames : list image) (keypoints : list (Q * Q))
         (error_thresh : Q) (optflow_fn : flow_fn) (exclude_border : Z)
         (trajs : list (list (Q * Q))),
    track_features np_sqrt frames keypoints error_thresh optflow_fn exclude_border
    = Ok trajs ->
    length trajs = Nat.max 1 (length frames).
Proof.
  intros np_sqrt frames kps thresh optflow eb trajs. unfold track_features.
  destruct (for_state _ _ _) as [[kp' trajs']|e] eqn:Hl; cbn [bind];
    [|discriminate].
  intros [= <-].
  destruct (track_loop_entries np_sqrt optflow thresh eb frames _ (fun _ => True)
              (fun _ _ _ _ _ _ => Logic.I) _ _ _ _ Hl) as (news & E & L & _).
  cbn [snd] in E. rewrite E, length_app, L, length_seq. cbn [length]. lia.
Qed.

Lemma trajectory_length_witness :
  length [four_keypoints; three_survivors; three_survivors]
  = Nat.max 1 (length [textured; textured; textured]).
Proof.
  apply (trajectory_length sqrt_down [textured; textured; textured]
           four_keypoints (3 # 2) ilk5 5).
  vm_compute; reflexivity.
Defined.

Lemma filter_mapr_origin {A B : Type} (f : A -> result (option B)) :
  forall (l : list A) (out : list B),
    filter_mapr f l = Ok out ->
    forall b, In b out -> exists a, In a l /\ f a = Ok (Some b).
Proof.
  induction l as [|a l IH]; intros out; cbn [filter_mapr].
  - intros [= <-] b [].
  - destruct (f a) as [o|e] eqn:Ea; cbn [bind]; [|discriminate].
    destruct (filter_mapr f l) as [bs|e]; cbn [bind]; [|discriminate].
    intros [= <-] b Hb.
    assert (Hcase : o = Some b \/ In b bs).
    { destruct o as [b'|]; [destruct Hb as [->|Hb]; [left; reflexivity | right; exact Hb]
                           | right; exact Hb]. }
    destruct Hcase as [->|Hb'].
    + exists a; split; [left; reflexivity | exact Ea].
    + destruct (IH bs eq_refl b Hb') as (x & Hx & Ex).
      exists x; split; [right; exact Hx | exact Ex].
Qed.

(** X17.  On frames of one shape H x W, every keypoint of every entry after the
    first has integer coordinates (r, c) inside the margin:
    exclude_border <= r <= H - exclude_border - 1 and
    exclude_border <= c <= W - exclude_border - 1. *)
Theorem tracked_keypoints_inside_margin :
  forall (np_sqrt : Q -> Q) (frames : list image) (keypoints : list (Q * Q))
         (error_thresh : Q) (optflow_fn : flow_fn) (exclude_border : Z)
         (trajs : list (list (Q * Q))) (H W : nat),
    (forall J, In J frames -> shape0 J = H /\ shape1 J = W) ->
    track_features np_sqrt frames keypoints error_thresh optflow_fn exclude_border
    = Ok trajs ->
    forall (i : nat) (entry : list (Q * Q)) (p : Q * Q),
      nth_error trajs (S i) = Some entry ->
      In p entry ->
      exists r c : Z,
        p = (inject_Z r, inject_Z c)
        /\ (exclude_border <= r <= Z.of_nat H - exclude_border - 1)%Z
        /\ (exclude_border <= c <= Z.of_nat W - exclude_border - 1)%Z.
Proof.
  intros np_sqrt frames kps thresh optflow eb trajs H W Hshape. unfold track_features.
  destruct (for_state _ _ _) as [[kp' trajs']|e] eqn:Hl; cbn [bind];
    [|discriminate].
  intros [= <-] i entry p Hn Hp.
  set (P := fun new : list (Q * Q) => forall p, In p new ->
                 exists r c : Z,
                   p = (inject_Z r, inject_Z c)
                   /\ (eb <= r <= Z.of_nat H - eb - 1)%Z
                   /\ (eb <= c <= Z.of_nat W - eb - 1)%Z).
  assert (HP : forall I J kp new,
             In J frames ->
             track_pair np_sqrt optflow thresh eb (3 / 2) I J kp = Ok new ->
             P new); [|destruct (track_loop_entries np_sqrt optflow thresh eb
                                   frames _ P HP _ _ _ _ Hl)
                         as (news & E & _ & F)].
  - intros I J kp new HJ. unfold track_pair.
    destruct (optflow I J kp) as [flows|e]; cbn [bind]; [|discriminate].
    destruct (np_add kp flows) as [nxt|e]; cbn [bind]; [|discriminate].
    destruct (np_hstack kp nxt) as [rows|e]; cbn [bind]; [|discriminate].
    intros Hfm q Hq.
    destruct (filter_mapr_origin _ _ _ Hfm q Hq) as ([[yi xi] [yj xj]] & _ & Hk).
    unfold keypoint_fate in Hk.
    destruct (outside_border J eb (py_round yj) (py_round xj)) eqn:Hb;
      [discriminate|].
    destruct (compute_error _ _ _) as [err|e]; cbn [bind] in Hk; [|discriminate].
    destruct (fgtb err thresh); [discriminate|]. injection Hk as <-.
    exists (py_round yj), (py_round xj). split; [reflexivity|].
    destruct (Hshape J HJ) as [<- <-]. unfold outside_border in Hb.
    destruct (Z.gtb_spec (py_round yj) (Z.of_nat (shape0 J) - eb - 1));
      [discriminate|].
    destruct (Z.ltb_spec (py_round yj) eb); [discriminate|].
    destruct (Z.gtb_spec (py_round xj) (Z.of_nat (shape1 J) - eb - 1));
      [discriminate|].
    destruct (Z.ltb_spec (py_round xj) eb); [discriminate|]. lia.
  - cbn [snd] in E. subst trajs'. cbn [app nth_error] in Hn.
    apply nth_error_In in Hn.
    exact (proj1 (Forall_forall _ _) F entry Hn p Hp).
Qed.

Lemma tracked_keypoints_inside_margin_witness :
  exists r c : Z,
    (6, 6) = (inject_Z r, inject_Z c)
    /\ (5 <= r <= Z.of_nat 12 - 5 - 1)%Z
    /\ (5 <= c <= Z.of_nat 12 - 5 - 1)%Z.
Proof.
  apply (tracked_keypoints_inside_margin sqrt_down [textured; textured; textured]
           four_keypoints (3 # 2) ilk5 5
           [four_keypoints; three_survivors; three_survivors] 12 12)
    with (i := 1%nat) (entry := three_survivors).
  - intros J [<-|[<-|[<-|[]]]]; split; reflexivity.
  - vm_compute; reflexivity.
  - reflexivity.
  - right; right; left; reflexivity.
Defined.

(** ** More on IoU *)

Lemma np_div_comp (a a' b b' : Q) :
  a == a' -> b == b' -> fnum_eq (np_div a b) (np_div a' b').
Proof.
  intros Ea Eb. unfold np_div.
  assert (Eq0 : Qeq_bool b 0 = Qeq_bool b' 0).
  { destruct (Qeq_bool b 0) eqn:E1, (Qeq_bool b' 0) eqn:E2; try reflexivity.
    - apply Qeq_bool_iff in E1. apply Qeq_bool_neq in E2.
      exfalso; apply E2. rewrite <- Eb; exact E1.
    - apply Qeq_bool_iff in E2. apply Qeq_bool_neq in E1.
      exfalso; apply E1. rewrite Eb; exact E2. }
  rewrite <- Eq0. destruct (Qeq_bool b 0).
  - rewrite (Qcompare_comp a a' Ea 0 0 (Qeq_refl 0)).
    destruct (Qcompare a' 0); exact Logic.I.
  - cbn. rewrite Ea, Eb. reflexivity.
Qed.

(** X19.  The score does not depend on the order of the two boxes. *)
Theorem IoU_symmetric :
  forall bbox1 bbox2 : bbox,
    exists s1 s2, IoU bbox1 bbox2 = Ok s1 /\ IoU bbox2 bbox1 = Ok s2
                  /\ fnum_eq s1 s2.
Proof.
  intros [[[x1 y1] w1] h1] [[[x2 y2] w2] h2].
  unfold IoU, np_amax_axis, np_amax2, np_amin2; cbn [Z.eqb orb bind].
  do 2 eexists. split; [reflexivity|]. split; [reflexivity|].
  apply np_div_comp;
    rewrite (Q.max_comm x1 x2), (Q.max_comm y1 y2),
      (Q.min_comm (x1 + w1) (x2 + w2)), (Q.min_comm (y1 + h1) (y2 + h2)); ring.
Qed.

(** X21.  For two boxes of non-negative area that are apart on exactly one axis,
    the unclamped extents have opposite signs and the score is negative. *)
Theorem IoU_apart_on_one_axis_negative :
  forall x1 y1 w1 h1 x2 y2 w2 h2 : Q,
    0 <= w1 * h1 -> 0 <= w2 * h2 ->
    let xAB := Qmin (x1 + w1) (x2 + w2) - Qmax x1 x2 in
    let yAB := Qmin (y1 + h1) (y2 + h2) - Qmax y1 y2 in
    (xAB < 0 /\ 0 < yAB) \/ (0 < xAB /\ yAB < 0) ->
    exists q, IoU (x1, y1, w1, h1) (x2, y2, w2, h2) = Ok (Fin q) /\ q < 0.
Proof.
  intros x1 y1 w1 h1 x2 y2 w2 h2 Ha1 Ha2 xAB yAB Hsep.
  unfold IoU, np_amax_axis, np_amax2, np_amin2; cbn [Z.eqb orb bind].
  fold xAB yAB.
  assert (Hi : xAB * yAB < 0).
  { destruct Hsep as [[Hx Hy]|[Hx Hy]].
    - setoid_replace (xAB * yAB) with (- ((- xAB) * yAB)) by ring.
      assert (0 < (- xAB) * yAB) by (apply Qmult_lt_0_compat; lra). lra.
    - setoid_replace (xAB * yAB) with (- (xAB * (- yAB))) by ring.
      assert (0 < xAB * (- yAB)) by (apply Qmult_lt_0_compat; lra). lra. }
  set (inter := xAB * yAB) in *.
  assert (Hu : 0 < w1 * h1 + w2 * h2 - inter) by lra.
  unfold np_div. destruct (Qeq_bool (w1 * h1 + w2 * h2 - inter) 0) eqn:E.
  - apply Qeq_bool_iff in E. lra.
  - eexists; split; [reflexivity|].
    apply Qlt_shift_div_r; [exact Hu | lra].
Qed.

Lemma IoU_apart_on_one_axis_negative_witness :
  exists q, IoU (0, 0, 2, 2) (10, 0, 2, 2) = Ok (Fin q) /\ q < 0.
Proof.
  apply (IoU_apart_on_one_axis_negative 0 0 2 2 10 0 2 2).
  - discriminate.
  - discriminate.
  - left. split; reflexivity.
Defined.

(** ** One iteration of the refiner and the single-level solver *)

Lemma window_pdata (img : image) (r0 r1 c0 c1 : Z) :
  pdata (window img r0 r1 c0 c1)
  = map (fun ij => px img (fst ij) (snd ij))
      (window_indices (shape0 img) (shape1 img) r0 r1 c0 c1).
Proof.
  unfold window, window_indices; cbn [pdata].
  induction (py_slice r0 r1 (shape0 img)) as [|i rows IH]; [reflexivity|].
  cbn [flat_map]. rewrite map_app, map_map, IH. reflexivity.
Qed.

Lemma np_sum_map_ext {A : Type} (F G : A -> Q) (l : list A) :
  (forall x, F x == G x) -> np_sum (map F l) == np_sum (map G l).
Proof.
  intros E. unfold np_sum. induction l as [|a l IH]; [reflexivity|].
  cbn [map fold_right]. rewrite IH, E. reflexivity.
Qed.

Lemma np_linalg_inv_comp (m n mi : mat2) :
  mat2_eq m n -> np_linalg_inv m = Ok mi ->
  exists ni, np_linalg_inv n = Ok ni /\ mat2_eq mi ni.
Proof.
  destruct m as [[a b] [c d]], n as [[a' b'] [c' d']].
  unfold mat2_eq; cbn [fst snd]. intros (Ea & Eb & Ec & Ed).
  unfold np_linalg_inv, det2.
  destruct (Qeq_bool (a * d - b * c) 0) eqn:E; [discriminate|].
  intros [= <-]. apply Qeq_bool_neq in E.
  assert (Ed' : a' * d' - b' * c' == a * d - b * c)
    by (rewrite Ea, Eb, Ec, Ed; reflexivity).
  destruct (Qeq_bool (a' * d' - b' * c') 0) eqn:E'.
  - apply Qeq_bool_iff in E'. exfalso; apply E. rewrite <- Ed'. exact E'.
  - eexists; split; [reflexivity|]. cbn [fst snd].
    rewrite Ed', Ea, Eb, Ec, Ed. repeat split; reflexivity.
Qed.

Lemma mat2_vec_comp (m n : mat2) (u v : Q * Q) :
  mat2_eq m n -> fst u == fst v -> snd u == snd v ->
  fst (mat2_vec m u) == fst (mat2_vec n v)
  /\ snd (mat2_vec m u) == snd (mat2_vec n v).
Proof.
  destruct m as [[a b] [c d]], n as [[a' b'] [c' d']], u as [u0 u1], v as [v0 v1].
  unfold mat2_eq; cbn [fst snd mat2_vec]. intros (Ea & Eb & Ec & Ed) E0 E1.
  rewrite Ea, Eb, Ec, Ed, E0, E1. split; reflexivity.
Qed.

Lemma image_sub_px (a b d : image) :
  shape0 a = shape0 b -> shape1 a = shape1 b ->
  (2 <= shape0 b)%nat -> (2 <= shape1 b)%nat ->
  image_sub a b = Ok d ->
  shape0 d = shape0 b /\ shape1 d = shape1 b
  /\ forall i j, px d i j = px a i j - px b i j.
Proof.
  intros E0 E1 H0 H1. unfold image_sub, bcast_dim, bcast_idx.
  rewrite E0, E1, !Nat.eqb_refl. intros [= <-]; cbn [shape0 shape1 px].
  destruct (Nat.eqb_spec (shape0 b) 1); [lia|].
  destruct (Nat.eqb_spec (shape1 b) 1); [lia|].
  repeat split.
Qed.

Lemma np_gradient_min_shape (img : image) (g : image * image) :
  np_gradient img = Ok g -> (2 <= shape0 img)%nat /\ (2 <= shape1 img)%nat.
Proof.
  unfold np_gradient.
  destruct (Nat.ltb_spec (shape0 img) 2); [discriminate|].
  destruct (Nat.ltb_spec (shape1 img) 2); [discriminate|].
  intros _; split; assumption.
Qed.

Section OneIteration.

Variables img1 img2 Iy Ix It : image.
Variable w : Z.

Hypothesis shape0_eq : shape0 img2 = shape0 img1.
Hypothesis shape1_eq : shape1 img2 = shape1 img1.
Hypothesis gradient_ok : np_gradient img1 = Ok (Iy, Ix).
Hypothesis sub_ok : image_sub img2 img1 = Ok It.

(** For one keypoint: a single iteration from the zero guess solves the
    system that [lucas_kanade] solves, and emits the solution swapped. *)
Lemma one_iteration_at (window_size : Z) (kp flow : Q * Q) :
  lucas_kanade_at Iy Ix It window_size w kp = Ok flow ->
  exists flow',
    iterative_lucas_kanade_at img1 img2 Iy Ix w 1 (kp, (0, 0)) = Ok flow'
    /\ fst flow' == snd flow /\ snd flow' == fst flow.
Proof.
  destruct kp as [y x].
  destruct (np_gradient_shapes _ _ _ gradient_ok) as (Hy0 & Hy1 & Hx0 & Hx1).
  destruct (np_gradient_min_shape _ _ gradient_ok) as [Hm0 Hm1].
  destruct (image_sub_px _ _ _ shape0_eq shape1_eq Hm0 Hm1 sub_ok)
    as (Ht0 & Ht1 & Hpx).
  unfold lucas_kanade_at, iterative_lucas_kanade_at, reshape_col, centred.
  rewrite !window_pdata, Hy0, Hy1, Hx0, Hx1, Ht0, Ht1.
  set (r := py_round y). set (c := py_round x).
  set (idx := window_indices (shape0 img1) (shape1 img1)
                (r - w) (r + w + 1) (c - w) (c + w + 1)).
  destruct (_ =? _)%Z; cbn [bind]; [|discriminate].
  destruct (_ =? _)%Z; cbn [bind]; [|discriminate].
  destruct (_ =? _)%Z; cbn [bind]; [|discriminate].
  set (ix := fun ij : nat * nat => px Ix (fst ij) (snd ij)).
  set (iy := fun ij : nat * nat => px Iy (fst ij) (snd ij)).
  set (it := fun ij : nat * nat => px It (fst ij) (snd ij)).
  set (a1 := fun ij : nat * nat => px img1 (fst ij) (snd ij)).
  destruct (np_linalg_inv (AT_A _)) as [mi|e] eqn:Hinv; cbn [bind];
    [|discriminate].
  intros [= <-].
  assert (HG : mat2_eq (AT_A (combine (map ix idx) (map iy idx)))
                 (G_matrix (map ix idx) (map iy idx))).
  { unfold AT_A, G_matrix, mat2_eq; cbn [fst snd].
    rewrite !combine_map_map, !map_map; cbn [fst snd].
    repeat split; apply np_sum_map_ext; intros ij; cbn; ring. }
  destruct (np_linalg_inv_comp _ _ _ HG Hinv) as (G_inv & -> & Hmi).
  cbn [bind seq for_state]. unfold ilk_iteration.
  rewrite (py_round_comp (y + 0 + 0) y) by ring.
  rewrite (py_round_comp (x + 0 + 0) x) by ring.
  fold r c. unfold centred. rewrite window_pdata, shape0_eq, shape1_eq.
  fold idx.
  change (map (fun ij => px img2 (fst ij) (snd ij)) idx)
    with (map (fun ij : nat * nat => px img2 (fst ij) (snd ij)) idx).
  set (a2 := fun ij : nat * nat => px img2 (fst ij) (snd ij)).
  unfold bcast_col at 1. rewrite !length_map, Nat.eqb_refl. cbn [bind].
  rewrite combine_map_map, map_map; cbn [fst snd].
  unfold bcast_col. rewrite !length_map, Nat.eqb_refl. cbn [bind].
  rewrite !combine_map_map, !map_map; cbn [fst snd].
  eexists; split; [reflexivity|]. cbn [fst snd].
  destruct (mat2_vec_comp mi G_inv
              (neg_AT_vec (combine (map ix idx) (map iy idx)) (map it idx))
              (np_sum (map (fun ij => (a1 ij - a2 ij) * ix ij) idx),
               np_sum (map (fun ij => (a1 ij - a2 ij) * iy ij) idx)) Hmi)
    as [E0 E1].
  - unfold neg_AT_vec; cbn [fst snd].
    rewrite !combine_map_map, !map_map; cbn [fst snd].
    apply np_sum_map_ext. intros ij. unfold it, a1, a2. rewrite Hpx. ring.
  - unfold neg_AT_vec; cbn [fst snd].
    rewrite !combine_map_map, !map_map; cbn [fst snd].
    apply np_sum_map_ext. intros ij. unfold it, a1, a2. rewrite Hpx. ring.
  - rewrite combine_map_map in E0, E1. rewrite E0, E1. split; ring.
Qed.

End OneIteration.

Lemma combine_map_r {A B : Type} (g : A -> B) (l : list A) :
  combine l (map g l) = map (fun x => (x, g x)) l.
Proof.
  induction l as [|a l IH]; [reflexivity|]. cbn [map combine]. rewrite IH.
  reflexivity.
Qed.

Lemma mapr_Forall2 {A B C : Type} (f : A -> result B) (g : A -> result C)
  (R : B -> C -> Prop) :
  (forall a b, f a = Ok b -> exists c, g a = Ok c /\ R b c) ->
  forall (l : list A) (out : list B),
    mapr f l = Ok out -> exists out', mapr g l = Ok out' /\ Forall2 R out out'.
Proof.
  intros H; induction l as [|a l IH]; intros out; cbn [mapr].
  - intros [= <-]. exists []; split; [reflexivity | constructor].
  - destruct (f a) as [b|e] eqn:Ea; cbn [bind]; [|discriminate].
    destruct (mapr f l) as [bs|e]; cbn [bind]; [|discriminate].
    intros [= <-]. destruct (H a b Ea) as (c & -> & Rbc).
    destruct (IH bs eq_refl) as (cs & -> & Hcs). cbn [bind].
    eexists; split; [reflexivity | constructor; assumption].
Qed.

(** X8.  On two frames of one shape, wherever [lucas_kanade] returns, one
    iteration of [iterative_lucas_kanade] from the default zero guess returns
    too, and each of its flow vectors is the one of [lucas_kanade] with the
    two components exchanged. *)
Theorem one_iteration_is_lucas_kanade_swapped :
  forall (img1 img2 : image) (keypoints flows : list (Q * Q)) (window_size : Z),
    shape0 img2 = shape0 img1 ->
    shape1 img2 = shape1 img1 ->
    lucas_kanade img1 img2 keypoints window_size = Ok flows ->
    exists flows',
      iterative_lucas_kanade img1 img2 keypoints window_size 1 None = Ok flows'
      /\ Forall2 (fun f f' => fst f' == snd f /\ snd f' == fst f) flows flows'.
Proof.
  intros img1 img2 kps flows ws E0 E1.
  unfold lucas_kanade, iterative_lucas_kanade.
  destruct (py_assert _); cbn [bind]; [|discriminate].
  destruct (np_gradient img1) as [[Iy Ix]|e] eqn:HG; cbn [bind]; [|discriminate].
  destruct (image_sub img2 img1) as [It|e] eqn:HI; cbn [bind]; [|discriminate].
  unfold np_hstack, np_zeros. rewrite length_map, Nat.eqb_refl; cbn [bind].
  rewrite combine_map_r, mapr_map.
  apply mapr_Forall2. intros kp flow Hflow.
  exact (one_iteration_at img1 img2 Iy Ix It (ws / 2) E0 E1 HG HI ws kp flow Hflow).
Qed.

Lemma one_iteration_is_lucas_kanade_swapped_witness :
  exists flows flows',
    lucas_kanade shift_ref shift_next [(2, 2)] 3 = Ok flows
    /\ iterative_lucas_kanade shift_ref shift_next [(2, 2)] 3 1 None = Ok flows'
    /\ Forall2 (fun f f' => fst f' == snd f /\ snd f' == fst f) flows flows'.
Proof.
  destruct (lucas_kanade shift_ref shift_next [(2, 2)] 3) as [flows|e] eqn:E;
    [|vm_compute in E; discriminate E].
  destruct (one_iteration_is_lucas_kanade_swapped shift_ref shift_next
              [(2, 2)] flows 3 eq_refl eq_refl E) as (flows' & E' & F).
  exists flows, flows'. repeat split; assumption.
Defined.

(** X10.  The flow vector that [lucas_kanade] returns at index [i] is the one it
    returns when called on keypoint [i] alone. *)
Theorem lucas_kanade_per_keypoint :
  forall (img1 img2 : image) (keypoints flows : list (Q * Q))
         (window_size : Z) (i : nat) (kp f : Q * Q),
    lucas_kanade img1 img2 keypoints window_size = Ok flows ->
    nth_error keypoints i = Some kp ->
    nth_error flows i = Some f ->
    lucas_kanade img1 img2 [kp] window_size = Ok [f].
Proof.
  intros img1 img2 kps flows ws i kp f. unfold lucas_kanade.
  destruct (py_assert _); cbn [bind]; [|discriminate].
  destruct (np_gradient img1) as [[Iy Ix]|e]; cbn [bind]; [|discriminate].
  destruct (image_sub img2 img1) as [It|e]; cbn [bind]; [|discriminate].
  intros Hm Hk Hf. cbn [mapr]. rewrite (mapr_nth _ _ _ _ _ _ Hm Hk Hf).
  reflexivity.
Qed.

Lemma lucas_kanade_per_keypoint_witness :
  exists f : Q * Q, lucas_kanade textured textured [(5, 7)] 5 = Ok [f].
Proof.
  eexists.
  eapply (lucas_kanade_per_keypoint textured textured [(6, 6); (5, 7)])
    with (i := 1%nat);
    [vm_compute; reflexivity | reflexivity | reflexivity].
Defined.

(** ** Keypoints that start on the edge of the first frame *)

Lemma outside_border_inside (J : image) (exclude_border r c : Z) :
  (exclude_border <= r <= Z.of_nat (shape0 J) - exclude_border - 1)%Z ->
  (exclude_border <= c <= Z.of_nat (shape1 J) - exclude_border - 1)%Z ->
  outside_border J exclude_border r c = false.
Proof.
  intros Hr Hc. unfold outside_border.
  destruct (Z.gtb_spec r (Z.of_nat (shape0 J) - exclude_border - 1)); [lia|].
  destruct (Z.ltb_spec r exclude_border); [lia|].
  destruct (Z.gtb_spec c (Z.of_nat (shape1 J) - exclude_border - 1)); [lia|].
  destruct (Z.ltb_spec c exclude_border); [lia|]. reflexivity.
Qed.

(** X18.  The keypoints given for the first frame are not tested against the
    border.  A candidate whose current rounded position lies on the
    outermost row or column of frame I, and whose next position passes the
    border test (with exclude_border >= 1), has a current patch smaller than
    3x3 and a next patch of 3x3: the shape assertion of [compute_error]
    fails and the transition raises instead of dropping the keypoint. *)
Theorem track_pair_edge_keypoint_raises :
  forall (np_sqrt : Q -> Q) (optflow_fn : flow_fn) (error_thresh : Q)
         (exclude_border : Z) (I J : image)
         (kp_curr flows kp_next : list (Q * Q)) (c n : Q * Q),
    optflow_fn I J kp_curr = Ok flows ->
    np_add kp_curr flows = Ok kp_next ->
    In (c, n) (combine kp_curr kp_next) ->
    (1 <= exclude_border)%Z ->
    (exclude_border <= py_round (fst n)
     <= Z.of_nat (shape0 J) - exclude_border - 1)%Z ->
    (exclude_border <= py_round (snd n)
     <= Z.of_nat (shape1 J) - exclude_border - 1)%Z ->
    ((0 < shape0 I)%nat
     /\ (py_round (fst c) = 0 \/ py_round (fst c) = Z.of_nat (shape0 I) - 1)%Z)
    \/ ((0 < shape1 I)%nat
        /\ (py_round (snd c) = 0 \/ py_round (snd c) = Z.of_nat (shape1 I) - 1)%Z) ->
    exists e,
      track_pair np_sqrt optflow_fn error_thresh exclude_border 1 I J kp_curr
      = Err e.
Proof.
  intros np_sqrt optflow thresh eb I J kp flows nxt c n Hf Ha Hin Heb Hr Hc Hedge.
  unfold track_pair. rewrite Hf; cbn [bind]. rewrite Ha; cbn [bind].
  destruct (np_hstack kp nxt) as [rows|e] eqn:Hs; cbn [bind]; [|eexists; reflexivity].
  apply np_hstack_Ok in Hs; destruct Hs as [_ ->].
  destruct (filter_mapr _ _) as [out|e] eqn:Hfm; [|eexists; reflexivity].
  destruct (filter_mapr_keeps _ _ _ Hfm _ Hin) as (o & Ho & _).
  exfalso. destruct c as [yi xi], n as [yj xj]; cbn [fst snd] in *.
  unfold keypoint_fate in Ho. rewrite (outside_border_inside J eb _ _ Hr Hc) in Ho.
  rewrite (centred_inside J (py_round yj) (py_round xj)) in Ho by lia.
  unfold compute_error in Ho. cbn [pshape fst snd] in Ho.
  unfold centred, window in Ho; cbn [pshape fst snd] in Ho.
  set (a := length (py_slice (py_round yi - 1) (py_round yi + 1 + 1) (shape0 I))) in *.
  set (b := length (py_slice (py_round xi - 1) (py_round xi + 1 + 1) (shape1 I))) in *.
  assert (Hshort : (Z.of_nat a < 3 \/ Z.of_nat b < 3)%Z).
  { destruct Hedge as [[Hpos He]|[Hpos He]]; [left | right].
    - apply (py_slice_crossing_short (py_round yi) 1 (shape0 I)); lia.
    - apply (py_slice_crossing_short (py_round xi) 1 (shape1 I)); lia. }
  destruct (Nat.eqb_spec a 3) as [Ea|]; [|discriminate Ho].
  destruct (Nat.eqb_spec b 3) as [Eb|]; [|discriminate Ho]. lia.
Qed.

Lemma track_pair_edge_keypoint_raises_witness :
  exists e, track_pair sqrt_down (fun _ _ k => Ok [(5, 0)]) (3 # 2) 5 1
              textured textured [(0, 6)] = Err e.
Proof.
  apply (track_pair_edge_keypoint_raises sqrt_down (fun _ _ k => Ok [(5, 0)])
           (3 # 2) 5 textured textured [(0, 6)] [(5, 0)] [(0 + 5, 6 + 0)]
           (0, 6) (0 + 5, 6 + 0)).
  - reflexivity.
  - reflexivity.
  - left; reflexivity.
  - discriminate.
  - vm_compute. split; discriminate.
  - vm_compute. split; discriminate.
  - left. split; [apply Nat.lt_0_succ | left; reflexivity].
Defined.

(** ** A witness for the overlapping score *)

Lemma IoU_overlapping_boxes_witness :
  IoU (0, 0, 4, 4) (2, 2, 4, 4) = Ok (IoU_clamped (0, 0, 4, 4) (2, 2, 4, 4)).
Proof. apply (IoU_overlapping_boxes 0 0 4 4 2 2 4 4); discriminate. Defined.
